(** * prism-maker: the geometry core ([src/geometry.py]) in Rocq

    A shallow embedding of [GeometryProcessor] and the properties of its
    face-extraction pipeline.

    Numbers.  The program computes on Python floats; the embedding computes on
    exact rationals in canonical form ([Qc]), so that Python's [==] on
    coordinates is Leibniz equality and every definition evaluates.  Rounding
    error, infinities and NaN are outside the model.

    Exceptions.  Division by zero, [int] of an infinity or a NaN, and a
    missing dictionary key raise in Python; the embedding threads them
    through the [result] monad.

    Libraries.  [numpy] (the turn angle) and [shapely] (polygon predicates)
    are not part of the repository: they enter as the type classes [Numpy]
    and [Shapely].  A reference model of the shapely operations is given for
    evaluating the pipeline on concrete drawings. *)

From Stdlib Require Import QArith Qcanon Qcabs Qround Lia Lqa Zpow_facts.
From Stdlib Require Import Sorted Permutation.
From stdpp Require Import base decidable numbers option list.

Local Open Scope Z_scope.
Local Open Scope Qc_scope.

(* [[x]] is a one-element list throughout, not an absolute value *)
Disable Notation "[ q ]" : Qc_scope.

(** ** Python values *)

Inductive exn : Type :=
| ZeroDivisionError   (* float division by zero *)
| OverflowError       (* int(inf) *)
| ValueError          (* int(nan) *)
| KeyError            (* d[k] on a missing key *)
| IndexError          (* l[i] out of range *)
| OutOfFuel.          (* not a Python exception: the bound of a modelled
                         [while True] loop ran out; never produced with the
                         bound the model uses, see [walk_loop_ok] *)

Inductive result (A : Type) : Type :=
| Ok (a : A)
| Raise (e : exn).
Arguments Ok {A} a.
Arguments Raise {A} e.

#[export] Instance result_ret : MRet result := fun A a => Ok a.
#[export] Instance result_bind : MBind result := fun A B f m =>
  match m with
  | Ok a => f a
  | Raise e => Raise e
  end.

(** [complex(x, y)] with its [.real] and [.imag]. *)
Definition complex : Type := Qc * Qc.
Definition real (z : complex) : Qc := fst z.
Definition imag (z : complex) : Qc := snd z.
Definition csub (a b : complex) : complex := (real a - real b, imag a - imag b).

Definition segment : Type := complex * complex.

Definition ofZ (z : Z) : Qc := Q2Qc (inject_Z z).
Definition pt (x y : Z) : complex := (ofZ x, ofZ y).

Definition Qc_ltb (x y : Qc) : bool := bool_decide (x < y).
Definition Qc_leb (x y : Qc) : bool := bool_decide (x ≤ y).
Definition Qc_min (x y : Qc) : Qc := if Qc_leb x y then x else y.
Definition Qc_max (x y : Qc) : Qc := if Qc_leb x y then y else x.

(** [x / y] on floats. *)
Definition py_div (x y : Qc) : result Qc :=
  if decide (y = 0) then Raise ZeroDivisionError else Ok (x / y).

(** [abs(z)] of a complex is a square root; the program only ever compares
    it.  [norm2 z] is its square, and [cabs_gtb z t] is [abs(z) > t]:
    a modulus is never negative, and squaring preserves the order of
    non-negative numbers. *)
Definition norm2 (z : complex) : Qc := real z * real z + imag z * imag z.
Definition cabs_gtb (z : complex) (t : Qc) : bool :=
  Qc_ltb t 0 || Qc_ltb (t * t) (norm2 z).

(** A Python [set] used for membership and insertion only; iteration, where
    the program iterates, follows insertion order in the model. *)
Definition set_add {A} `{EqDecision A} (x : A) (s : list A) : list A :=
  if decide (x ∈ s) then s else s ++ [x].

(** [set(l)]: the distinct elements of [l], first occurrences kept. *)
Definition set_of_list {A} `{EqDecision A} (l : list A) : list A :=
  fold_left (fun s x => set_add x s) l [].

(** [sorted(l, key=key)] for a rational key: a stable insertion sort. *)
Fixpoint insert_by {A} (key : A -> Qc) (x : A) (l : list A) : list A :=
  match l with
  | [] => [x]
  | y :: l' =>
      if Qc_leb (key x) (key y) then x :: y :: l'
      else y :: insert_by key x l'
  end.

Definition sorted_by {A} (key : A -> Qc) (l : list A) : list A :=
  foldr (insert_by key) [] l.

(** ** The processor object *)

Record GeometryProcessor : Type := mkGeometryProcessor {
  tolerance : Qc;
  intersections : list complex;     (* Set[complex] *)
  segments : list segment
}.

Definition __init__ (tol : Qc) : GeometryProcessor :=
  {| tolerance := tol; intersections := []; segments := [] |}.

Definition set_intersections (self : GeometryProcessor) (s : list complex)
  : GeometryProcessor :=
  {| tolerance := tolerance self; intersections := s;
     segments := segments self |}.

Definition set_segments (self : GeometryProcessor) (s : list segment)
  : GeometryProcessor :=
  {| tolerance := tolerance self; intersections := intersections self;
     segments := s |}.

(** ** Segment intersector *)

Definition denominator (seg1 seg2 : segment) : Qc :=
  let '(p1, p2) := seg1 in
  let '(p3, p4) := seg2 in
  (real p1 - real p2) * (imag p3 - imag p4)
  - (imag p1 - imag p2) * (real p3 - real p4).

Definition t_numerator (seg1 seg2 : segment) : Qc :=
  let '(p1, p2) := seg1 in
  let '(p3, p4) := seg2 in
  (real p1 - real p3) * (imag p3 - imag p4)
  - (imag p1 - imag p3) * (real p3 - real p4).

Definition u_numerator (seg1 seg2 : segment) : Qc :=
  let '(p1, p2) := seg1 in
  let '(p3, p4) := seg2 in
  - ((real p1 - real p2) * (imag p1 - imag p3)
     - (imag p1 - imag p2) * (real p1 - real p3)).

Definition in_unit (t : Qc) : bool := Qc_leb 0 t && Qc_leb t 1.

Definition point_at (seg : segment) (t : Qc) : complex :=
  let '(p1, p2) := seg in
  (real p1 + t * (real p2 - real p1), imag p1 + t * (imag p2 - imag p1)).

Definition _line_intersection (self : GeometryProcessor)
    (seg1 seg2 : segment) : result (option complex) :=
  let denom := denominator seg1 seg2 in
  if Qc_ltb (Qcabs denom) (tolerance self) then Ok None
  else
    t ← py_div (t_numerator seg1 seg2) denom;
    u ← py_div (u_numerator seg1 seg2) denom;
    if in_unit t && in_unit u then Ok (Some (point_at seg1 t))
    else Ok None.

(** The inner loop of [_find_intersections]: [seg1] against the segments
    after it. *)
Fixpoint find_intersections_from (self : GeometryProcessor) (seg1 : segment)
    (rest : list segment) (acc : list complex) : result (list complex) :=
  match rest with
  | [] => Ok acc
  | seg2 :: rest' =>
      r ← _line_intersection self seg1 seg2;
      find_intersections_from self seg1 rest'
        (match r with
         | Some p => set_add p acc
         | None => acc
         end)
  end.

Fixpoint find_intersections_loop (self : GeometryProcessor)
    (segs : list segment) (acc : list complex) : result (list complex) :=
  match segs with
  | [] => Ok acc
  | seg1 :: rest =>
      acc' ← find_intersections_from self seg1 rest acc;
      find_intersections_loop self rest acc'
  end.

Definition _find_intersections (self : GeometryProcessor)
  : result GeometryProcessor :=
  s ← find_intersections_loop self (segments self) (intersections self);
  Ok (set_intersections self s).

(** ** Segment splitter *)

Definition _point_on_segment (self : GeometryProcessor) (point : complex)
    (seg : segment) : bool :=
  let '(start, end_) := seg in
  let cross_product :=
    (imag point - imag start) * (real end_ - real start)
    - (real point - real start) * (imag end_ - imag start) in
  if Qc_ltb (tolerance self) (Qcabs cross_product) then false
  else
    let min_x := Qc_min (real start) (real end_) in
    let max_x := Qc_max (real start) (real end_) in
    let min_y := Qc_min (imag start) (imag end_) in
    let max_y := Qc_max (imag start) (imag end_) in
    Qc_leb (min_x - tolerance self) (real point)
    && Qc_leb (real point) (max_x + tolerance self)
    && Qc_leb (min_y - tolerance self) (imag point)
    && Qc_leb (imag point) (max_y + tolerance self).

(** The sort key is [abs(point - start)]; the model sorts on its square,
    which orders the points the same way. *)
Definition _sort_points_along_segment (points : list complex)
    (start end_ : complex) : list complex :=
  sorted_by (fun point => norm2 (csub point start)) (set_of_list points).

(** [for i in range(len(l) - 1)]: the consecutive pairs of [l]. *)
Fixpoint consecutive_pairs {A} (l : list A) : list (A * A) :=
  match l with
  | x :: (y :: _) as l' => (x, y) :: consecutive_pairs l'
  | _ => []
  end.

Definition split_segment (self : GeometryProcessor) (seg : segment)
  : list segment :=
  let '(start, end_) := seg in
  let on_segment :=
    filter (fun i => _point_on_segment self i seg = true)
           (intersections self) in
  let points :=
    _sort_points_along_segment (on_segment ++ [start; end_]) start end_ in
  filter (fun '(p1, p2) => cabs_gtb (csub p2 p1) (tolerance self) = true)
         (consecutive_pairs points).

Definition _split_segments_at_intersections (self : GeometryProcessor)
  : list segment :=
  flat_map (split_segment self) (segments self).

(** ** Planar graph builder *)

(** [floor (log10 q)] for [1 ≤ q], by repeated division; [fuel] bounds the
    number of divisions ([floor_log10_spec] shows the bound used is enough). *)
Fixpoint ilog10 (fuel : nat) (q : Qc) : nat :=
  match fuel with
  | O => O
  | S fuel' => if Qc_leb (ofZ 10) q then S (ilog10 fuel' (q / ofZ 10)) else O
  end.

Definition log10_fuel (q : Qc) : nat :=
  match Qnum q with
  | Zpos p => Pos.size_nat p
  | _ => O
  end.

Definition floor_log10 (q : Qc) : nat := ilog10 (log10_fuel q) q.

(** [int(-np.log10(self.tolerance))].  [np.log10] is [-inf] at zero and NaN
    below it, and [int] raises on both; [int] truncates towards zero. *)
Definition precision (self : GeometryProcessor) : result Z :=
  let tol := tolerance self in
  if decide (tol = 0) then Raise OverflowError
  else if Qc_ltb tol 0 then Raise ValueError
  else if Qc_leb tol 1 then Ok (Z.of_nat (floor_log10 (1 / tol)))
  else Ok (- Z.of_nat (floor_log10 tol))%Z.

Definition pow10 (n : nat) : Qc := ofZ 10 ^ n.

(** Nearest integer, ties to the even one. *)
Definition round_half_even (y : Qc) : Z :=
  let f := Qfloor y in
  let r := y - ofZ f in
  if Qc_ltb r (1 / ofZ 2) then f
  else if Qc_ltb (1 / ofZ 2) r then (f + 1)%Z
  else if Z.even f then f else (f + 1)%Z.

(** A coordinate on the rounding grid of step [10^-ndigits], and the grid
    point of an integer. *)
Definition scaled (x : Qc) (ndigits : Z) : Qc :=
  match ndigits with
  | Zneg p => x / pow10 (Pos.to_nat p)
  | _ => x * pow10 (Z.to_nat ndigits)
  end.

Definition unscaled (k : Z) (ndigits : Z) : Qc :=
  match ndigits with
  | Zneg p => ofZ k * pow10 (Pos.to_nat p)
  | _ => ofZ k / pow10 (Z.to_nat ndigits)
  end.

(** [round(x, ndigits)]. *)
Definition py_round (x : Qc) (ndigits : Z) : Qc :=
  match ndigits with
  | Zneg p =>
      let s := pow10 (Pos.to_nat p) in ofZ (round_half_even (x / s)) * s
  | _ =>
      let s := pow10 (Z.to_nat ndigits) in ofZ (round_half_even (x * s)) / s
  end.

Definition _round_point (self : GeometryProcessor) (point : complex)
  : result complex :=
  p ← precision self;
  Ok (py_round (real point) p, py_round (imag point) p).

(** A Python [dict] whose iteration order matters: an association list in
    insertion order, one entry per key. *)
Definition graph : Type := list (complex * list complex).

Fixpoint dict_get (g : graph) (k : complex) : result (list complex) :=
  match g with
  | [] => Raise KeyError
  | (k', v) :: g' => if decide (k = k') then Ok v else dict_get g' k
  end.

Definition dict_keys (g : graph) : list complex := map fst g.

(** [if k not in graph: graph[k] = []] *)
Definition dict_setdefault (g : graph) (k : complex) : graph :=
  if decide (k ∈ dict_keys g) then g else g ++ [(k, [])].

(** [graph[k].append(v)] *)
Fixpoint dict_append (g : graph) (k v : complex) : graph :=
  match g with
  | [] => []
  | (k', l) :: g' =>
      if decide (k = k') then (k', l ++ [v]) :: g'
      else (k', l) :: dict_append g' k v
  end.

Definition add_edge (g : graph) (start_key end_key : complex) : graph :=
  let g1 := dict_setdefault g start_key in
  let g2 := dict_setdefault g1 end_key in
  let g3 := dict_append g2 start_key end_key in
  dict_append g3 end_key start_key.

Fixpoint build_graph_loop (self : GeometryProcessor) (segs : list segment)
    (g : graph) : result graph :=
  match segs with
  | [] => Ok g
  | (start, end_) :: segs' =>
      start_key ← _round_point self start;
      end_key ← _round_point self end_;
      build_graph_loop self segs' (add_edge g start_key end_key)
  end.

Definition _build_segment_graph (self : GeometryProcessor)
    (segs : list segment) : result graph :=
  build_graph_loop self segs [].

(** ** Face extractor *)

Definition edge : Type := complex * complex.

(** The order of [key=lambda x: (x.real, x.imag)]. *)
Definition key_ltb (a b : complex) : bool :=
  Qc_ltb (real a) (real b)
  || (bool_decide (real a = real b) && Qc_ltb (imag a) (imag b)).

(** [tuple(sorted([a, b], key=...))]; the sort is stable. *)
Definition edge_of (a b : complex) : edge :=
  if key_ltb b a then (b, a) else (a, b).

(** What the walk needs of numpy: [np.angle] and the remainder modulo
    [2 * np.pi]. *)
Class Numpy : Type := {
  np_angle : complex -> Qc;
  mod_2pi : Qc -> Qc
}.

(** [angle_diff < best_angle], with [None] for [float('inf')]. *)
Definition lt_best (d : Qc) (best : option Qc) : bool :=
  match best with
  | None => true
  | Some b => Qc_ltb d b
  end.

Definition _choose_rightmost_neighbor `{Numpy} (current previous : complex)
    (neighbors : list complex) : result complex :=
  match neighbors with
  | [] => Raise IndexError
  | first :: _ =>
      let incoming_angle := np_angle (csub current previous) in
      Ok (fst (fold_left
                 (fun '(best_neighbor, best_angle) neighbor =>
                    let outgoing_angle := np_angle (csub neighbor current) in
                    let angle_diff :=
                      mod_2pi (outgoing_angle - incoming_angle) in
                    if lt_best angle_diff best_angle
                    then (neighbor, Some angle_diff)
                    else (best_neighbor, best_angle))
                 neighbors (first, None)))
  end.

(** [path[-2]] *)
Definition penultimate (path : list complex) : result complex :=
  match rev path with
  | _ :: p :: _ => Ok p
  | _ => Raise IndexError
  end.

(** The marking done when a cycle closes: the edges along [path], then the
    closing edge. *)
Definition mark_cycle (path : list complex) (current start : complex)
    (visited_edges : list edge) : list edge :=
  set_add (edge_of current start)
    (fold_left (fun v '(a, b) => set_add (edge_of a b) v)
               (consecutive_pairs path) visited_edges).

(** How the [while True] loop of [_find_cycle_from_edge] ends: it returns
    [path] after marking its edges, or breaks with no eligible neighbour. *)
Inductive walk_end : Type :=
| Closed (path : list complex) (visited_edges : list edge)
| DeadEnd (path : list complex).

Definition eligible (current : complex) (visited_edges : list edge)
    (visited_nodes : list complex) (neighbor : complex) : Prop :=
  (edge_of current neighbor ∉ visited_edges) ∧ (neighbor ∉ visited_nodes).

#[export] Instance eligible_dec current visited_edges visited_nodes neighbor :
  Decision (eligible current visited_edges visited_nodes neighbor).
Proof. unfold eligible. apply _. Defined.

(** [start in graph[current]] with the closing edge unvisited and
    [len(path) >= 3]. *)
Definition can_close (adj : list complex) (start current : complex)
    (visited_edges : list edge) (path : list complex) : bool :=
  bool_decide (start ∈ adj)
  && bool_decide (edge_of current start ∉ visited_edges)
  && bool_decide (3 ≤ length path)%nat.

Fixpoint walk_loop `{Numpy} (fuel : nat) (g : graph) (start : complex)
    (visited_edges : list edge) (path visited_nodes : list complex)
    (current : complex) : result walk_end :=
  match fuel with
  | O => Raise OutOfFuel
  | S fuel' =>
      adj ← dict_get g current;
      let neighbors :=
        filter (eligible current visited_edges visited_nodes) adj in
      if can_close adj start current visited_edges path
      then Ok (Closed path (mark_cycle path current start visited_edges))
      else
        match neighbors with
        | [] => Ok (DeadEnd path)
        | first :: others =>
            next_node ←
              match others with
              | [] => Ok first
              | _ =>
                  previous ← penultimate path;
                  _choose_rightmost_neighbor current previous neighbors
              end;
            walk_loop fuel' g start visited_edges (path ++ [next_node])
              (set_add next_node visited_nodes) next_node
        end
  end.

(** Every step of a walk moves to a node it has not seen, taken from some
    adjacency list: the number of adjacency entries bounds the steps. *)
Definition all_neighbors (g : graph) : list complex := flat_map snd g.
Definition walk_fuel (g : graph) : nat := S (length (all_neighbors g)).

(** Returns the cycle, if any, and the visited-edge set as the call leaves
    it (the Python set is mutated in place). *)
Definition _find_cycle_from_edge `{Numpy} (g : graph) (start current : complex)
    (visited_edges : list edge) : result (option (list complex) * list edge) :=
  w ← walk_loop (walk_fuel g) g start visited_edges
        [start; current] (set_add current [start]) current;
  match w with
  | Closed path visited_edges' => Ok (Some path, visited_edges')
  | DeadEnd _ => Ok (None, visited_edges)
  end.

(** [if cycle and len(cycle) >= 3] *)
Definition keep_cycle (cycle : option (list complex)) : bool :=
  match cycle with
  | Some [] | None => false
  | Some c => bool_decide (3 ≤ length c)%nat
  end.

(** The body of the double loop of [_find_cycles_in_graph], on the pair
    [(cycles, visited_edges)]. *)
Definition try_edge `{Numpy} (g : graph) (start_node neighbor : complex)
    (st : list (list complex) * list edge)
  : result (list (list complex) * list edge) :=
  let '(cycles, visited_edges) := st in
  if decide (edge_of start_node neighbor ∈ visited_edges) then Ok st
  else
    r ← _find_cycle_from_edge g start_node neighbor visited_edges;
    match r with
    | (Some c, visited_edges') =>
        if keep_cycle (Some c) then Ok (cycles ++ [c], visited_edges')
        else Ok (cycles, visited_edges')
    | (None, visited_edges') => Ok (cycles, visited_edges')
    end.

Fixpoint cycles_from_node `{Numpy} (g : graph) (start_node : complex)
    (adj : list complex) (st : list (list complex) * list edge)
  : result (list (list complex) * list edge) :=
  match adj with
  | [] => Ok st
  | neighbor :: adj' =>
      st' ← try_edge g start_node neighbor st;
      cycles_from_node g start_node adj' st'
  end.

Fixpoint cycles_loop `{Numpy} (g : graph) (nodes : list complex)
    (st : list (list complex) * list edge)
  : result (list (list complex) * list edge) :=
  match nodes with
  | [] => Ok st
  | start_node :: nodes' =>
      adj ← dict_get g start_node;
      st' ← cycles_from_node g start_node adj st;
      cycles_loop g nodes' st'
  end.

Definition _find_cycles_in_graph `{Numpy} (g : graph)
  : result (list (list complex)) :=
  st ← cycles_loop g (dict_keys g) ([], []);
  Ok (fst st).

(** ** Polygon validator and de-nester *)

(** [Polygon(coords)]: the polygon whose exterior ring is [coords]. *)
Record Polygon : Type := mkPolygon { exterior : list (Qc * Qc) }.

(** What the validator needs of shapely.  [constructible coords] says that
    [Polygon(coords)] does not raise. *)
Class Shapely : Type := {
  constructible : list (Qc * Qc) -> bool;
  is_valid : Polygon -> bool;
  is_empty : Polygon -> bool;
  area : Polygon -> Qc;
  contains : Polygon -> Polygon -> bool
}.

(** The side bound written in the validator. *)
Definition MAX_SIDES : nat := 6.

(** The body of the [try] block for one cycle: the polygon when it passes,
    nothing when the test fails or the constructor raises. *)
Definition validate_cycle `{Shapely} (self : GeometryProcessor)
    (cycle : list complex) : option Polygon :=
  let coords := map (fun p => (real p, imag p)) cycle in
  if constructible coords then
    let polygon := mkPolygon coords in
    if is_valid polygon
       && negb (is_empty polygon)
       && Qc_ltb (tolerance self) (area polygon)
       && bool_decide (length coords ≤ MAX_SIDES)%nat
    then Some polygon
    else None
  else None.

(** [enumerate(l)] *)
Definition enumerate {A} (l : list A) : list (nat * A) :=
  imap pair l.

(** The inner loop of [_remove_nested_polygons]: is there a [j] other than
    [i] whose polygon contains [poly1]? *)
Definition is_nested `{Shapely} (polygons : list Polygon) (i : nat)
    (poly1 : Polygon) : bool :=
  existsb (fun '(j, poly2) => negb (i =? j)%nat && contains poly2 poly1)
          (enumerate polygons).

Definition _remove_nested_polygons `{Shapely} (polygons : list Polygon)
  : list Polygon :=
  map snd
    (filter (fun '(i, poly1) => is_nested polygons i poly1 = false)
            (enumerate polygons)).

Definition _validate_polygons `{Shapely} (self : GeometryProcessor)
    (cycles : list (list complex)) : list Polygon :=
  _remove_nested_polygons (omap (validate_cycle self) cycles).

(** ** The pipeline *)

(** Returns the polygons and the processor as the call leaves it. *)
Definition find_polygons `{Numpy} `{Shapely} (self : GeometryProcessor)
    (line_segments : list segment)
  : result (list Polygon * GeometryProcessor) :=
  let self := set_segments self line_segments in
  let self := set_intersections self [] in
  self ← _find_intersections self;
  let split_segments := _split_segments_at_intersections self in
  graph ← _build_segment_graph self split_segments;
  polygons ← _find_cycles_in_graph graph;
  let valid_polygons := _validate_polygons self polygons in
  Ok (valid_polygons, self).

(** ** A reference model of the shapely operations

    For polygons without holes, which is all the validator builds. *)

Module ShapelyModel.

Definition pt2 : Type := (Qc * Qc)%type.

(** Twice the signed area of the triangle [a b c]. *)
Definition orient (a b c : pt2) : Qc :=
  (fst b - fst a) * (snd c - snd a) - (snd b - snd a) * (fst c - fst a).

Definition in_box (a b p : pt2) : bool :=
  Qc_leb (Qc_min (fst a) (fst b)) (fst p)
  && Qc_leb (fst p) (Qc_max (fst a) (fst b))
  && Qc_leb (Qc_min (snd a) (snd b)) (snd p)
  && Qc_leb (snd p) (Qc_max (snd a) (snd b)).

(** [p] lies on the closed segment [a b]. *)
Definition on_segment (a b p : pt2) : bool :=
  bool_decide (orient a b p = 0) && in_box a b p.

(** The open segments cross at a single interior point. *)
Definition proper_cross (a b c d : pt2) : bool :=
  Qc_ltb (orient c d a * orient c d b) 0
  && Qc_ltb (orient a b c * orient a b d) 0.

(** The closed segments share a point. *)
Definition segments_meet (a b c d : pt2) : bool :=
  proper_cross a b c d
  || on_segment c d a || on_segment c d b
  || on_segment a b c || on_segment a b d.

(** The edges of the ring through [coords], the closing edge last. *)
Definition ring_edges (coords : list pt2) : list (pt2 * pt2) :=
  match coords with
  | [] => []
  | first :: _ => consecutive_pairs (coords ++ [first])
  end.

(** Two edges of a ring, at positions [i < j] among [n]: neighbours may
    share their common vertex only, the others may share nothing. *)
Definition edges_compatible (n i j : nat) (e f : pt2 * pt2) : bool :=
  let '(a, b) := e in
  let '(c, d) := f in
  if (j =? i + 1)%nat then
    (* b = c *)
    negb (on_segment a b d) && negb (on_segment c d a)
  else if (i =? 0)%nat && (j =? n - 1)%nat then
    (* d = a *)
    negb (on_segment a b c) && negb (on_segment c d b)
  else negb (segments_meet a b c d).

Definition ring_simple (coords : list pt2) : bool :=
  let es := enumerate (ring_edges coords) in
  let n := length es in
  forallb (fun '(i, e) =>
             forallb (fun '(j, f) =>
                        if (i <? j)%nat then edges_compatible n i j e f
                        else true)
                     es)
          es.

(** The shoelace sum: twice the signed area. *)
Definition shoelace (coords : list pt2) : Qc :=
  fold_right (fun '(a, b) acc => fst a * snd b - fst b * snd a + acc) 0
             (ring_edges coords).

Definition on_boundary (coords : list pt2) (p : pt2) : bool :=
  existsb (fun '(a, b) => on_segment a b p) (ring_edges coords).

(** Crossing-number test for a point off the boundary. *)
Definition crossings_odd (coords : list pt2) (p : pt2) : bool :=
  fold_right
    (fun '(a, b) acc =>
       if negb (Bool.eqb (Qc_ltb (snd p) (snd a)) (Qc_ltb (snd p) (snd b)))
          && Qc_ltb (fst p)
               (fst a + (snd p - snd a) * (fst b - fst a) / (snd b - snd a))
       then negb acc else acc)
    false (ring_edges coords).

Definition covers_point (coords : list pt2) (p : pt2) : bool :=
  on_boundary coords p || crossings_odd coords p.

Definition model_constructible (coords : list pt2) : bool :=
  match coords with
  | [] => true
  | _ => bool_decide (3 ≤ length coords)%nat
  end.

Definition model_is_empty (p : Polygon) : bool :=
  match exterior p with
  | [] => true
  | _ => false
  end.

Definition model_is_valid (p : Polygon) : bool :=
  model_is_empty p
  || (bool_decide (3 ≤ length (exterior p))%nat && ring_simple (exterior p)).

Definition model_area (p : Polygon) : Qc :=
  Qcabs (shoelace (exterior p)) / ofZ 2.

(** [q.contains(p)]: every vertex of [p] is in the closed region of [q] and
    no edge of [p] crosses an edge of [q].  Exact when [q] is convex. *)
Definition model_contains (q p : Polygon) : bool :=
  negb (model_is_empty p)
  && forallb (covers_point (exterior q)) (exterior p)
  && forallb (fun '(a, b) =>
                forallb (fun '(c, d) => negb (proper_cross a b c d))
                        (ring_edges (exterior q)))
             (ring_edges (exterior p)).

Definition shapely : Shapely := {|
  constructible := model_constructible;
  is_valid := model_is_valid;
  is_empty := model_is_empty;
  area := model_area;
  contains := model_contains
|}.

End ShapelyModel.

(** ** Bookkeeping for the statements *)

#[export] Instance exn_eq_dec : EqDecision exn.
Proof. solve_decision. Defined.

#[export] Instance result_eq_dec {A} `{EqDecision A} : EqDecision (result A).
Proof. solve_decision. Defined.

#[export] Instance Polygon_eq_dec : EqDecision Polygon.
Proof. solve_decision. Defined.

#[export] Instance walk_end_eq_dec : EqDecision walk_end.
Proof. solve_decision. Defined.

(** The polygons of a [find_polygons] call. *)
Definition returned {A B} (r : result (A * B)) : result A :=
  match r with
  | Ok (a, _) => Ok a
  | Raise e => Raise e
  end.

(** The edges a path runs along, and those of the ring it closes into. *)
Definition path_edges (path : list complex) : list edge :=
  map (fun '(a, b) => edge_of a b) (consecutive_pairs path).

Definition closing_edge (path : list complex) : list edge :=
  match path, rev path with
  | start :: _, current :: _ => [edge_of current start]
  | _, _ => []
  end.

Definition cycle_edges (cycle : list complex) : list edge :=
  path_edges cycle ++ closing_edge cycle.

(** Every neighbour has an adjacency entry of its own. *)
Definition graph_closed (g : graph) : Prop :=
  Forall (fun entry => Forall (fun n => n ∈ dict_keys g) (snd entry)) g.

(** The walk [_find_cycle_from_edge] runs from the edge
    [(start, current)]. *)
Definition first_walk `{Numpy} (g : graph) (start current : complex)
    (visited_edges : list edge) : result walk_end :=
  walk_loop (walk_fuel g) g start visited_edges
    [start; current] (set_add current [start]) current.

(** One walk of an extraction pass: the visited-edge set it started from,
    its first edge, and how it ended. *)
Record walk_record : Type := mkWalk {
  w_visited : list edge;
  w_start : complex;
  w_first : complex;
  w_end : walk_end
}.

(** The edges a walk went along: those of its path and, when it closed, the
    closing edge. *)
Definition walk_edges (w : walk_record) : list edge :=
  match w_end w with
  | Closed path _ => cycle_edges path
  | DeadEnd path => path_edges path
  end.

(** The edges a walk marked visited. *)
Definition walk_marked (w : walk_record) : list edge :=
  match w_end w with
  | Closed _ visited_edges => visited_edges
  | DeadEnd _ => []
  end.

(** The paths of the walks that closed. *)
Definition closed_paths (log : list walk_record) : list (list complex) :=
  omap (fun w => match w_end w with
                 | Closed path _ => Some path
                 | DeadEnd _ => None
                 end) log.

(** The walks of a pass, in order: a replay of the double loop of
    [_find_cycles_in_graph] that records every call of
    [_find_cycle_from_edge]. *)
Fixpoint walks_from_node `{Numpy} (g : graph) (start_node : complex)
    (adj : list complex) (st : list (list complex) * list edge)
  : result (list walk_record) :=
  match adj with
  | [] => Ok []
  | neighbor :: adj' =>
      st' ← try_edge g start_node neighbor st;
      rest ← walks_from_node g start_node adj' st';
      if decide (edge_of start_node neighbor ∈ snd st) then Ok rest
      else
        w ← first_walk g start_node neighbor (snd st);
        Ok (mkWalk (snd st) start_node neighbor w :: rest)
  end.

Fixpoint walks_loop `{Numpy} (g : graph) (nodes : list complex)
    (st : list (list complex) * list edge) : result (list walk_record) :=
  match nodes with
  | [] => Ok []
  | start_node :: nodes' =>
      adj ← dict_get g start_node;
      here ← walks_from_node g start_node adj st;
      st' ← cycles_from_node g start_node adj st;
      rest ← walks_loop g nodes' st';
      Ok (here ++ rest)
  end.

Definition extraction_walks `{Numpy} (g : graph) : result (list walk_record) :=
  walks_loop g (dict_keys g) ([], []).

(** What holds of the walks [log] that took the loop state from [st] to
    [st']: the cycles appended are the closed paths; the visited-edge set
    only grows; every walk started from a set between the two, went only
    along edges outside the set it started from, and marked, when it
    closed, exactly the edges of its cycle; and whatever a walk marked is
    in the set every later walk starts from. *)
Definition walk_ok (w : walk_record) : Prop :=
  Forall (fun e => e ∉ w_visited w) (walk_edges w)
  ∧ match w_end w with
    | Closed path visited_edges' =>
        (3 ≤ length path)%nat
        ∧ ∀ e, e ∈ visited_edges' ↔ e ∈ w_visited w ∨ e ∈ cycle_edges path
    | DeadEnd _ => True
    end.

Definition pass_ok (st : list (list complex) * list edge)
    (log : list walk_record) (st' : list (list complex) * list edge) : Prop :=
  fst st' = fst st ++ closed_paths log
  ∧ snd st ⊆ snd st'
  ∧ (∀ w, w ∈ log →
          snd st ⊆ w_visited w ∧ w_visited w ⊆ snd st'
          ∧ walk_marked w ⊆ snd st' ∧ walk_ok w)
  ∧ (∀ i j wi wj,
       (i < j)%nat → log !! i = Some wi → log !! j = Some wj →
       walk_marked wi ⊆ w_visited wj).

(** What holds of a loop state: the edges of the cycles found so far are
    marked visited, no edge is in two of them, and each has at least three
    nodes. *)
Definition cycles_inv (st : list (list complex) * list edge) : Prop :=
  (∀ c e, c ∈ fst st → e ∈ cycle_edges c → e ∈ snd st)
  ∧ (∀ i j ci cj,
       (i < j)%nat → fst st !! i = Some ci → fst st !! j = Some cj →
       ∀ e, e ∈ cycle_edges ci → e ∉ cycle_edges cj)
  ∧ Forall (fun c => (3 ≤ length c)%nat) (fst st).

(** Two vertex lists describe the same ring: equal up to rotation and
    direction. *)
Definition same_ring {A} (l1 l2 : list A) : Prop :=
  ∃ k, rotate k l1 = l2 ∨ rotate k (rev l1) = l2.

(** On the grid of step [10^-ndigits], [x] is less than half a step away
    from the grid point of [k]. *)
Definition within_half (ndigits : Z) (x : Qc) (k : Z) : Prop :=
  ofZ k - 1 / ofZ 2 < scaled x ndigits
  ∧ scaled x ndigits < ofZ k + 1 / ofZ 2.

(** [abs(p - q) < eps] *)
Definition closer_than (eps : Qc) (p q : complex) : Prop :=
  0 < eps ∧ norm2 (csub p q) < eps * eps.

(** A rational stand-in for numpy's angles, for running the walk: the
    "diamond" angle of a vector, monotone in the true angle, a full turn
    being 4. *)
Module NumpyModel.

Definition diamond (z : complex) : Qc :=
  let x := real z in
  let y := imag z in
  if decide (x = 0 ∧ y = 0) then 0
  else if Qc_leb 0 y then
    if Qc_leb 0 x then y / (x + y) else 1 - x / (y - x)
  else
    if Qc_ltb x 0 then - ofZ 2 - y / (- x - y) else - ofZ 1 + x / (x - y).

Definition mod4 (a : Qc) : Qc :=
  a - ofZ (4 * Qfloor (a / ofZ 4)).

Definition numpy : Numpy := {| np_angle := diamond; mod_2pi := mod4 |}.

End NumpyModel.

(** ** Bookkeeping for the further properties *)

(** The pairs the intersector visits: [seg1] before [seg2] in the list. *)
Definition scanned_pair (segs : list segment) (seg1 seg2 : segment) : Prop :=
  ∃ i j, (i < j)%nat ∧ segs !! i = Some seg1 ∧ segs !! j = Some seg2.

(** The order [_sort_points_along_segment] sorts by. *)
Definition nearer (start a b : complex) : Prop :=
  norm2 (csub a start) ≤ norm2 (csub b start).

(** [b in graph[a]] *)
Definition has_edge (g : graph) (a b : complex) : Prop :=
  ∃ adj, dict_get g a = Ok adj ∧ b ∈ adj.

(** The [angle_diff] of [_choose_rightmost_neighbor] for one neighbour. *)
Definition angle_diff `{Numpy} (current previous neighbor : complex) : Qc :=
  mod_2pi (np_angle (csub neighbor current)
           - np_angle (csub current previous)).

(** A path of the graph: each node is a neighbour of the one before. *)
Definition graph_path (g : graph) (path : list complex) : Prop :=
  Forall (fun '(a, b) => has_edge g a b) (consecutive_pairs path).

(** * Properties *)

(** ** Arithmetic helpers *)

Lemma Qc_ltb_spec x y : Qc_ltb x y = true ↔ x < y.
Proof. unfold Qc_ltb. apply bool_decide_eq_true. Qed.

Lemma Qc_leb_spec x y : Qc_leb x y = true ↔ x ≤ y.
Proof. unfold Qc_leb. apply bool_decide_eq_true. Qed.

Lemma Qc_ltb_false x y : Qc_ltb x y = false ↔ ¬ x < y.
Proof. unfold Qc_ltb. apply bool_decide_eq_false. Qed.

Lemma in_unit_spec t : in_unit t = true ↔ 0 ≤ t ≤ 1.
Proof. unfold in_unit. rewrite andb_true_iff, !Qc_leb_spec. tauto. Qed.

Lemma Qc_opp_nonzero d : d ≠ 0 → - d ≠ 0.
Proof.
  intros Hd E. apply Hd. rewrite <- (Qcopp_involutive d), E. reflexivity.
Qed.

Lemma py_div_ok x y : y ≠ 0 → py_div x y = Ok (x / y).
Proof. intros Hy. unfold py_div. destruct (decide (y = 0)); [contradiction|reflexivity]. Qed.

Lemma py_div_zero x : py_div x 0 = Raise ZeroDivisionError.
Proof. unfold py_div. destruct (decide (0 = 0)); [reflexivity|contradiction]. Qed.

Lemma denominator_swap seg1 seg2 :
  denominator seg2 seg1 = - denominator seg1 seg2.
Proof.
  destruct seg1 as [[x1 y1] [x2 y2]], seg2 as [[x3 y3] [x4 y4]].
  unfold denominator, real, imag; simpl. ring.
Qed.

Lemma t_swap seg1 seg2 :
  denominator seg1 seg2 ≠ 0 →
  t_numerator seg2 seg1 / denominator seg2 seg1
  = u_numerator seg1 seg2 / denominator seg1 seg2.
Proof.
  intros Hd. rewrite denominator_swap.
  destruct seg1 as [[x1 y1] [x2 y2]], seg2 as [[x3 y3] [x4 y4]].
  unfold denominator, t_numerator, u_numerator, real, imag in *; simpl in *.
  field. split; [exact Hd | apply Qc_opp_nonzero, Hd].
Qed.

Lemma u_swap seg1 seg2 :
  denominator seg1 seg2 ≠ 0 →
  u_numerator seg2 seg1 / denominator seg2 seg1
  = t_numerator seg1 seg2 / denominator seg1 seg2.
Proof.
  intros Hd. rewrite denominator_swap.
  destruct seg1 as [[x1 y1] [x2 y2]], seg2 as [[x3 y3] [x4 y4]].
  unfold denominator, t_numerator, u_numerator, real, imag in *; simpl in *.
  field. split; [exact Hd | apply Qc_opp_nonzero, Hd].
Qed.

(** The two parametrisations meet: the point at [t] on the first segment is
    the point at [u] on the second. *)
Lemma point_at_meet seg1 seg2 :
  denominator seg1 seg2 ≠ 0 →
  point_at seg1 (t_numerator seg1 seg2 / denominator seg1 seg2)
  = point_at seg2 (u_numerator seg1 seg2 / denominator seg1 seg2).
Proof.
  intros Hd.
  destruct seg1 as [[x1 y1] [x2 y2]], seg2 as [[x3 y3] [x4 y4]].
  unfold denominator, t_numerator, u_numerator, point_at, real, imag in *;
    simpl in *.
  f_equal; field; exact Hd.
Qed.

Lemma line_intersection_unfold self seg1 seg2 :
  denominator seg1 seg2 ≠ 0 →
  ¬ Qcabs (denominator seg1 seg2) < tolerance self →
  _line_intersection self seg1 seg2 =
  if in_unit (t_numerator seg1 seg2 / denominator seg1 seg2)
     && in_unit (u_numerator seg1 seg2 / denominator seg1 seg2)
  then Ok (Some (point_at seg1
                   (t_numerator seg1 seg2 / denominator seg1 seg2)))
  else Ok None.
Proof.
  intros Hd Hlt. unfold _line_intersection.
  apply Qc_ltb_false in Hlt. rewrite Hlt.
  rewrite !py_div_ok by exact Hd. reflexivity.
Qed.

Lemma line_intersection_sym self seg1 seg2 :
  _line_intersection self seg1 seg2 = _line_intersection self seg2 seg1.
Proof.
  destruct (decide (Qcabs (denominator seg1 seg2) < tolerance self)) as [Hlt|Hlt].
  - unfold _line_intersection. rewrite (denominator_swap seg1 seg2), Qcabs_opp.
    apply Qc_ltb_spec in Hlt. rewrite Hlt. reflexivity.
  - destruct (decide (denominator seg1 seg2 = 0)) as [Hz|Hd].
    + unfold _line_intersection. rewrite (denominator_swap seg1 seg2), Qcabs_opp.
      apply Qc_ltb_false in Hlt. rewrite Hlt, Hz.
      replace (- 0) with 0 by ring. rewrite !py_div_zero. reflexivity.
    + rewrite line_intersection_unfold by assumption.
      rewrite (line_intersection_unfold self seg2 seg1).
      * rewrite (t_swap seg1 seg2), (u_swap seg1 seg2) by exact Hd.
        rewrite (andb_comm (in_unit (u_numerator _ _ / _))).
        rewrite <- point_at_meet by exact Hd. reflexivity.
      * rewrite denominator_swap. apply Qc_opp_nonzero, Hd.
      * rewrite denominator_swap, Qcabs_opp. exact Hlt.
Qed.

(** ** Segment intersector *)

(** With a positive tolerance the "not near-parallel" branch never divides
    by zero. *)
Lemma denominator_nonzero (eps d : Qc) :
  0 < eps → ¬ Qcabs d < eps → d ≠ 0.
Proof.
  intros Hpos Hn ->. apply Hn.
  rewrite Qcabs_pos by apply Qcle_refl. exact Hpos.
Qed.

(** C3.  The intersector reports nothing when [|denom| < ε]; otherwise it
    computes the parameters [t] and [u], reports a point exactly when both
    lie in [[0,1]], and that point is the parametric solution
    [(x1 + t (x2 - x1), y1 + t (y2 - y1))], which is also the point at [u]
    on the second segment.  For a positive [ε] the denominator of the second
    branch is never zero; for [ε ≤ 0] and parallel segments the division
    raises. *)
Theorem line_intersection_correct (self : GeometryProcessor)
    (x1 y1 x2 y2 x3 y3 x4 y4 : Qc) :
  let eps := tolerance self in
  let seg1 : segment := ((x1, y1), (x2, y2)) in
  let seg2 : segment := ((x3, y3), (x4, y4)) in
  let denom := (x1 - x2) * (y3 - y4) - (y1 - y2) * (x3 - x4) in
  let t := ((x1 - x3) * (y3 - y4) - (y1 - y3) * (x3 - x4)) / denom in
  let u := - ((x1 - x2) * (y1 - y3) - (y1 - y2) * (x1 - x3)) / denom in
  (Qcabs denom < eps → _line_intersection self seg1 seg2 = Ok None)
  ∧ (¬ Qcabs denom < eps → denom ≠ 0 →
     (∀ p, _line_intersection self seg1 seg2 = Ok (Some p) ↔
           (0 ≤ t ≤ 1 ∧ 0 ≤ u ≤ 1)
           ∧ p = (x1 + t * (x2 - x1), y1 + t * (y2 - y1)))
     ∧ (_line_intersection self seg1 seg2 = Ok None ↔
        ¬ (0 ≤ t ≤ 1 ∧ 0 ≤ u ≤ 1))
     ∧ (x1 + t * (x2 - x1), y1 + t * (y2 - y1))
       = (x3 + u * (x4 - x3), y3 + u * (y4 - y3)))
  ∧ (0 < eps → ¬ Qcabs denom < eps → denom ≠ 0)
  ∧ (¬ Qcabs denom < eps → denom = 0 →
     _line_intersection self seg1 seg2 = Raise ZeroDivisionError).
Proof.
  intros eps seg1 seg2 denom t u.
  assert (Hden : denominator seg1 seg2 = denom) by reflexivity.
  assert (Ht : t_numerator seg1 seg2 / denominator seg1 seg2 = t)
    by reflexivity.
  assert (Hu : u_numerator seg1 seg2 / denominator seg1 seg2 = u)
    by reflexivity.
  split; [|split; [|split]].
  - intros Hlt. unfold _line_intersection. rewrite Hden.
    apply Qc_ltb_spec in Hlt. fold eps. rewrite Hlt. reflexivity.
  - intros Hn Hd.
    rewrite line_intersection_unfold by (rewrite Hden; assumption).
    rewrite Ht, Hu.
    assert (Hpt : point_at seg1 t = (x1 + t * (x2 - x1), y1 + t * (y2 - y1)))
      by reflexivity.
    rewrite Hpt.
    destruct (in_unit t && in_unit u) eqn:E.
    + apply andb_true_iff in E. rewrite !in_unit_spec in E.
      split; [|split].
      * intros p. split.
        -- intros [= <-]. split; [exact E | reflexivity].
        -- intros [_ ->]. reflexivity.
      * split; [discriminate | intros Hc; contradiction].
      * rewrite <- Hpt, <- Ht, <- Hu.
        apply point_at_meet. rewrite Hden. exact Hd.
    + assert (Hno : ¬ (0 ≤ t ≤ 1 ∧ 0 ≤ u ≤ 1)).
      { intros [H1 H2]. apply in_unit_spec in H1, H2.
        rewrite H1, H2 in E. discriminate. }
      split; [|split].
      * intros p. split; [discriminate | intros [Hc _]; contradiction].
      * split; [intros _; exact Hno | reflexivity].
      * rewrite <- Hpt, <- Ht, <- Hu.
        apply point_at_meet. rewrite Hden. exact Hd.
  - apply denominator_nonzero.
  - intros Hn Hz. unfold _line_intersection. rewrite Hden.
    apply Qc_ltb_false in Hn. fold eps. rewrite Hn, Hz.
    rewrite py_div_zero. reflexivity.
Qed.

(** The diagonals of a square cross at its centre. *)
Lemma line_intersection_correct_witness :
  _line_intersection (__init__ (ofZ 1 / ofZ 10))
    (pt 0 0, pt 2 2) (pt 0 2, pt 2 0) = Ok (Some (pt 1 1)).
Proof.
  pose proof (line_intersection_correct (__init__ (ofZ 1 / ofZ 10))
                (ofZ 0) (ofZ 0) (ofZ 2) (ofZ 2)
                (ofZ 0) (ofZ 2) (ofZ 2) (ofZ 0)) as H.
  cbv zeta in H. destruct H as (_ & H & _).
  apply H.
  - vm_compute. discriminate.
  - vm_compute. discriminate.
  - split.
    + vm_compute. repeat split; discriminate.
    + apply (bool_decide_unpack _). vm_compute. exact I.
Defined.

(** C10.  Swapping the two segments swaps the roles of [t] and [u]: one
    call reports a point exactly when the other does.  In exact arithmetic
    the two calls agree altogether, on the point and on the raised error. *)
Theorem line_intersection_symmetric (self : GeometryProcessor)
    (seg1 seg2 : segment) :
  ((∃ p, _line_intersection self seg1 seg2 = Ok (Some p)) ↔
   (∃ q, _line_intersection self seg2 seg1 = Ok (Some q)))
  ∧ _line_intersection self seg1 seg2 = _line_intersection self seg2 seg1.
Proof.
  split; [|apply line_intersection_sym].
  rewrite (line_intersection_sym self seg1 seg2). reflexivity.
Qed.

(** ** The pipeline is a function of the tolerance and the input *)

Lemma find_intersections_tolerance self self' :
  _find_intersections self = Ok self' → tolerance self' = tolerance self.
Proof.
  unfold _find_intersections.
  destruct (find_intersections_loop _ _ _); simpl; [|discriminate].
  intros [= <-]. reflexivity.
Qed.

Lemma find_polygons_tolerance `{Numpy} `{Shapely} self segs polys self' :
  find_polygons self segs = Ok (polys, self') →
  tolerance self' = tolerance self.
Proof.
  unfold find_polygons.
  destruct (_find_intersections _) as [s|] eqn:E; simpl; [|discriminate].
  apply find_intersections_tolerance in E. simpl in E.
  destruct (_build_segment_graph _ _); simpl; [|discriminate].
  destruct (_find_cycles_in_graph _); simpl; [|discriminate].
  intros [= _ <-]. exact E.
Qed.

Lemma find_polygons_state `{Numpy} `{Shapely} self1 self2 segs :
  tolerance self1 = tolerance self2 →
  find_polygons self1 segs = find_polygons self2 segs.
Proof.
  intros Htol. unfold find_polygons, set_intersections, set_segments.
  simpl. rewrite Htol. reflexivity.
Qed.

(** C9.  [find_polygons] resets the processor's segments and intersection
    set on entry, so what it returns depends on the tolerance and the input
    only: two processors with the same tolerance, whatever earlier runs left
    in them, return the same polygons in the same order (in particular the
    same multiset), and a second run on the processor the first run left
    behind repeats the first. *)
Theorem find_polygons_deterministic `{Numpy} `{Shapely}
    (self1 self2 : GeometryProcessor) (line_segments : list segment) :
  tolerance self1 = tolerance self2 →
  returned (find_polygons self1 line_segments)
  = returned (find_polygons self2 line_segments)
  ∧ (∀ polys1 polys2,
       returned (find_polygons self1 line_segments) = Ok polys1 →
       returned (find_polygons self2 line_segments) = Ok polys2 →
       polys1 ≡ₚ polys2)
  ∧ (∀ polys self',
       find_polygons self1 line_segments = Ok (polys, self') →
       find_polygons self' line_segments = Ok (polys, self')).
Proof.
  intros Htol. split; [|split].
  - rewrite (find_polygons_state self1 self2) by exact Htol. reflexivity.
  - intros polys1 polys2 H1 H2.
    rewrite (find_polygons_state self1 self2) in H1 by exact Htol.
    rewrite H1 in H2. injection H2 as ->. reflexivity.
  - intros polys self' Hrun. rewrite <- Hrun.
    apply find_polygons_state.
    eapply find_polygons_tolerance. exact Hrun.
Qed.

(** A fresh processor and one that has already worked on another
    drawing. *)
Lemma find_polygons_deterministic_witness :
  let self1 := __init__ (ofZ 1 / ofZ 10) in
  let self2 :=
    mkGeometryProcessor (ofZ 1 / ofZ 10) [pt 1 1]%list
      [(pt 0 0, pt 2 2); (pt 0 2, pt 2 0)] in
  let segs := [(pt 0 0, pt 3 0); (pt 3 0, pt 1 2); (pt 1 2, pt 0 0)] in
  returned (find_polygons (H := NumpyModel.numpy) (H0 := ShapelyModel.shapely)
              self1 segs)
  = returned (find_polygons (H := NumpyModel.numpy)
                (H0 := ShapelyModel.shapely) self2 segs).
Proof.
  intros self1 self2 segs.
  apply (find_polygons_deterministic (H := NumpyModel.numpy)
           (H0 := ShapelyModel.shapely) self1 self2 segs).
  reflexivity.
Defined.

(** ** Face extractor: a walk that dead-ends *)

Lemma find_cycle_from_edge_unfold `{Numpy} g start current visited_edges :
  _find_cycle_from_edge g start current visited_edges =
  w ← first_walk g start current visited_edges;
  match w with
  | Closed path visited_edges' => Ok (Some path, visited_edges')
  | DeadEnd _ => Ok (None, visited_edges)
  end.
Proof. reflexivity. Qed.

(** C6.  A walk from the edge [(A, B)] that reaches a node with no eligible
    neighbour and no way to close ends there; [_find_cycle_from_edge] then
    returns no face and the visited-edge set it was given, and the
    enclosing loop keeps its cycles and its visited-edge set as they
    were. *)
Theorem dead_end_marks_nothing `{Numpy} (g : graph) (A B : complex)
    (visited_edges : list edge) :
  (∀ fuel path visited_nodes current adj,
     dict_get g current = Ok adj →
     filter (eligible current visited_edges visited_nodes) adj = [] →
     can_close adj A current visited_edges path = false →
     walk_loop (S fuel) g A visited_edges path visited_nodes current
     = Ok (DeadEnd path))
  ∧ (∀ path,
       first_walk g A B visited_edges = Ok (DeadEnd path) →
       _find_cycle_from_edge g A B visited_edges = Ok (None, visited_edges))
  ∧ (∀ visited_edges',
       _find_cycle_from_edge g A B visited_edges = Ok (None, visited_edges') →
       visited_edges' = visited_edges)
  ∧ (∀ path cycles,
       first_walk g A B visited_edges = Ok (DeadEnd path) →
       try_edge g A B (cycles, visited_edges) = Ok (cycles, visited_edges)).
Proof.
  split; [|split; [|split]].
  - intros fuel path visited_nodes current adj Hadj Hnone Hclose.
    simpl. rewrite Hadj. simpl. rewrite Hclose, Hnone. reflexivity.
  - intros path Hw. rewrite find_cycle_from_edge_unfold, Hw. reflexivity.
  - intros visited_edges'. rewrite find_cycle_from_edge_unfold.
    destruct (first_walk g A B visited_edges) as [[p v|p]|e]; simpl;
      [discriminate | | discriminate].
    intros [= <-]. reflexivity.
  - intros path cycles Hw. unfold try_edge.
    destruct (decide (edge_of A B ∈ visited_edges)); [reflexivity|].
    rewrite find_cycle_from_edge_unfold, Hw. reflexivity.
Qed.

(** Two nodes joined by a single edge: the walk from one to the other has
    nowhere to go. *)
Lemma dead_end_marks_nothing_witness :
  let g : graph := [(pt 0 0, [pt 1 0]%list); (pt 1 0, [pt 0 0]%list)] in
  first_walk (H := NumpyModel.numpy) g (pt 0 0) (pt 1 0) []
  = Ok (DeadEnd [pt 0 0; pt 1 0])
  ∧ _find_cycle_from_edge (H := NumpyModel.numpy) g (pt 0 0) (pt 1 0) []
    = Ok (None, []).
Proof.
  intros g.
  assert (Hw : first_walk (H := NumpyModel.numpy) g (pt 0 0) (pt 1 0) []
               = Ok (DeadEnd [pt 0 0; pt 1 0])).
  { apply (bool_decide_unpack _). vm_compute. exact I. }
  split; [exact Hw|].
  destruct (dead_end_marks_nothing (H := NumpyModel.numpy) g
              (pt 0 0) (pt 1 0) []) as (_ & Hd & _).
  exact (Hd _ Hw).
Defined.

(** ** Polygon validator and de-nester *)

Lemma elem_of_enumerate {A} (l : list A) i x :
  (i, x) ∈ enumerate l ↔ l !! i = Some x.
Proof.
  unfold enumerate. rewrite elem_of_lookup_imap. split.
  - intros (j & y & [= -> ->] & Hl). exact Hl.
  - intros Hl. exists i, x. split; [reflexivity | exact Hl].
Qed.

Lemma is_nested_true `{Shapely} polygons i poly1 :
  is_nested polygons i poly1 = true ↔
  ∃ j poly2, polygons !! j = Some poly2 ∧ j ≠ i
             ∧ contains poly2 poly1 = true.
Proof.
  unfold is_nested. rewrite existsb_exists. split.
  - intros ([j poly2] & Hin & Hb).
    apply list_elem_of_In, elem_of_enumerate in Hin.
    apply andb_true_iff in Hb as [Hne Hc].
    apply negb_true_iff, Nat.eqb_neq in Hne.
    exists j, poly2. auto.
  - intros (j & poly2 & Hl & Hne & Hc).
    exists (j, poly2). split.
    + apply list_elem_of_In, elem_of_enumerate, Hl.
    + apply andb_true_iff. split; [|exact Hc].
      apply negb_true_iff, Nat.eqb_neq. auto.
Qed.

Lemma elem_of_remove_nested `{Shapely} polygons poly1 :
  poly1 ∈ _remove_nested_polygons polygons ↔
  ∃ i, polygons !! i = Some poly1 ∧ is_nested polygons i poly1 = false.
Proof.
  unfold _remove_nested_polygons.
  rewrite list_elem_of_fmap. split.
  - intros ([i p] & -> & Hin). apply list_elem_of_filter in Hin as [Hn Hin].
    apply elem_of_enumerate in Hin. exists i. auto.
  - intros (i & Hl & Hn). exists (i, poly1). split; [reflexivity|].
    apply list_elem_of_filter. split; [exact Hn|].
    apply elem_of_enumerate, Hl.
Qed.

Lemma remove_nested_subset `{Shapely} polygons poly1 :
  poly1 ∈ _remove_nested_polygons polygons → poly1 ∈ polygons.
Proof.
  rewrite elem_of_remove_nested. intros (i & Hl & _).
  eapply list_elem_of_lookup_2, Hl.
Qed.

(** C7.  A polygon that another entry of the list contains is not in the
    output of the de-nesting step; and of two polygons, one containing the
    other and not the other way round, only the containing one remains,
    whichever comes first. *)
Theorem nested_polygon_dropped `{Shapely} :
  (∀ (polygons : list Polygon) (i j : nat) (P Q : Polygon),
     i ≠ j →
     polygons !! i = Some P →
     polygons !! j = Some Q →
     contains Q P = true →
     P ∉ _remove_nested_polygons polygons)
  ∧ (∀ outer inner : Polygon,
       contains outer inner = true →
       contains inner outer = false →
       _remove_nested_polygons [outer; inner] = [outer]
       ∧ _remove_nested_polygons [inner; outer] = [outer]).
Proof.
  split.
  - intros polygons i j P Q Hij Hi Hj Hc Hin.
    apply elem_of_remove_nested in Hin as (k & Hk & Hn).
    assert (Hy : is_nested polygons k P = true); [|congruence].
    apply is_nested_true.
    destruct (decide (j = k)) as [->|Hjk].
    + exists i, P. split; [exact Hi|]. split; [exact Hij|].
      rewrite Hk in Hj. injection Hj as ->. exact Hc.
    + exists j, Q. auto.
  - intros outer inner Hoi Hio.
    unfold _remove_nested_polygons, is_nested, enumerate. simpl.
    rewrite !filter_cons, !filter_nil. simpl. rewrite Hoi, Hio. simpl.
    split; reflexivity.
Qed.

(** One square strictly inside another, in the reference model of
    [contains]; the whole pipeline on the eight sides returns the outer
    square only. *)
Lemma nested_polygon_dropped_witness :
  let outer :=
    mkPolygon [(ofZ 0, ofZ 0); (ofZ 50, ofZ 0); (ofZ 50, ofZ 50);
               (ofZ 0, ofZ 50)] in
  let inner :=
    mkPolygon [(ofZ 10, ofZ 10); (ofZ 20, ofZ 10); (ofZ 20, ofZ 20);
               (ofZ 10, ofZ 20)] in
  _remove_nested_polygons (H := ShapelyModel.shapely) [outer; inner] = [outer]
  ∧ (inner ∉ _remove_nested_polygons (H := ShapelyModel.shapely)
               [outer; inner])
  ∧ returned
      (find_polygons (H := NumpyModel.numpy) (H0 := ShapelyModel.shapely)
         (__init__ (ofZ 1 / ofZ 10))
         [(pt 0 0, pt 50 0); (pt 50 0, pt 50 50); (pt 50 50, pt 0 50);
          (pt 0 50, pt 0 0);
          (pt 10 10, pt 20 10); (pt 20 10, pt 20 20); (pt 20 20, pt 10 20);
          (pt 10 20, pt 10 10)])
    = Ok [outer].
Proof.
  intros outer inner.
  destruct (nested_polygon_dropped (H := ShapelyModel.shapely)) as [H1 H2].
  split; [|split].
  - apply H2; vm_compute; reflexivity.
  - apply (H1 [outer; inner] 1%nat 0%nat inner outer);
      [lia | reflexivity | reflexivity | vm_compute; reflexivity].
  - apply (bool_decide_unpack _). vm_compute. exact I.
Defined.

Lemma validate_cycle_Some `{Shapely} self cycle p :
  validate_cycle self cycle = Some p →
  p = mkPolygon (map (fun z => (real z, imag z)) cycle)
  ∧ is_valid p = true
  ∧ is_empty p = false
  ∧ tolerance self < area p
  ∧ (length cycle ≤ MAX_SIDES)%nat.
Proof.
  unfold validate_cycle.
  destruct (constructible _); [|discriminate].
  destruct (_ && _) eqn:E; [|discriminate].
  intros [= <-].
  repeat (apply andb_true_iff in E as [E ?]).
  split; [reflexivity|]. split; [exact E|].
  split; [apply negb_true_iff; assumption|].
  split; [apply Qc_ltb_spec; assumption|].
  match goal with
  | Hl : bool_decide _ = true |- _ => apply bool_decide_eq_true in Hl
  end.
  rewrite length_map in *. assumption.
Qed.

Lemma elem_of_validate_polygons `{Shapely} self cycles p :
  p ∈ _validate_polygons self cycles →
  ∃ cycle, cycle ∈ cycles ∧ validate_cycle self cycle = Some p.
Proof.
  intros Hin. apply remove_nested_subset in Hin.
  apply list_elem_of_omap in Hin. exact Hin.
Qed.

(** C5, as the code has it.  The validator compares the area with the
    tolerance itself: every polygon it returns has area above [ε], a face
    whose polygon has area at most [ε] is discarded, and the bound [ε²]
    follows for tolerances between 0 and 1. *)
Theorem validated_area_above_tolerance `{Shapely}
    (self : GeometryProcessor) (cycles : list (list complex)) :
  (∀ p, p ∈ _validate_polygons self cycles → tolerance self < area p)
  ∧ (∀ cycle,
       let polygon := mkPolygon (map (fun z => (real z, imag z)) cycle) in
       area polygon ≤ tolerance self →
       validate_cycle self cycle = None
       ∧ polygon ∉ _validate_polygons self cycles)
  ∧ (0 ≤ tolerance self ≤ 1 →
     ∀ p, p ∈ _validate_polygons self cycles →
          tolerance self * tolerance self < area p).
Proof.
  assert (Hgt : ∀ p, p ∈ _validate_polygons self cycles →
                     tolerance self < area p).
  { intros p Hin.
    apply elem_of_validate_polygons in Hin as (c & _ & Hv).
    apply validate_cycle_Some in Hv. tauto. }
  split; [exact Hgt|]. split.
  - intros cycle polygon Hle. split.
    + destruct (validate_cycle self cycle) as [p|] eqn:Hv; [|reflexivity].
      apply validate_cycle_Some in Hv as (-> & _ & _ & Hlt & _).
      exfalso. eapply Qclt_not_le; [exact Hlt | exact Hle].
    + intros Hin. apply Hgt in Hin.
      eapply Qclt_not_le; [exact Hin | exact Hle].
  - intros [H0 H1] p Hin.
    eapply Qcle_lt_trans; [|apply Hgt, Hin].
    rewrite <- (Qcmult_1_l (tolerance self)) at 3.
    apply Qcmult_le_compat_r; assumption.
Qed.

Lemma validated_area_above_tolerance_witness :
  let self := __init__ (ofZ 1 / ofZ 10) in
  let square := [pt 0 0; pt 50 0; pt 50 50; pt 0 50] in
  let p :=
    mkPolygon [(ofZ 0, ofZ 0); (ofZ 50, ofZ 0); (ofZ 50, ofZ 50);
               (ofZ 0, ofZ 50)] in
  p ∈ _validate_polygons (H := ShapelyModel.shapely) self [square]
  ∧ tolerance self * tolerance self
    < area (Shapely := ShapelyModel.shapely) p.
Proof.
  intros self square p.
  assert (Hin : p ∈ _validate_polygons (H := ShapelyModel.shapely) self
                      [square]).
  { apply (bool_decide_unpack _). vm_compute. exact I. }
  split; [exact Hin|].
  destruct (validated_area_above_tolerance (H := ShapelyModel.shapely)
              self [square]) as (_ & _ & Hsq).
  apply Hsq; [split; vm_compute; discriminate | exact Hin].
Defined.

(** The bound [ε²] of C5 fails for a tolerance above 1: with [ε = 2] the
    triangle (0,0), (3,0), (1,2) has area 3, more than [ε] and less than
    [ε² = 4]; the validator returns it, and so does the whole pipeline on
    its three sides. *)
Lemma validated_area_square_counterexample :
  let self := __init__ (ofZ 2) in
  let p := mkPolygon [(ofZ 0, ofZ 0); (ofZ 3, ofZ 0); (ofZ 1, ofZ 2)] in
  p ∈ _validate_polygons (H := ShapelyModel.shapely) self
        [[pt 0 0; pt 3 0; pt 1 2]]
  ∧ area (Shapely := ShapelyModel.shapely) p = ofZ 3
  ∧ ¬ (tolerance self * tolerance self
       < area (Shapely := ShapelyModel.shapely) p)
  ∧ returned (find_polygons (H := NumpyModel.numpy)
                (H0 := ShapelyModel.shapely) self
                [(pt 0 0, pt 3 0); (pt 3 0, pt 1 2); (pt 1 2, pt 0 0)])
    = Ok [p].
Proof.
  intros self p. split; [|split; [|split]].
  - apply (bool_decide_unpack _). vm_compute. exact I.
  - apply (bool_decide_unpack _). vm_compute. exact I.
  - vm_compute. discriminate.
  - apply (bool_decide_unpack _). vm_compute. exact I.
Qed.

(** ** Edge identity *)

Lemma key_ltb_spec a b :
  key_ltb a b = true ↔
  real a < real b ∨ (real a = real b ∧ imag a < imag b).
Proof.
  unfold key_ltb.
  rewrite orb_true_iff, andb_true_iff, !Qc_ltb_spec, bool_decide_eq_true.
  reflexivity.
Qed.

(** The key of an edge does not depend on the direction it is walked in:
    it names the unordered pair of its end nodes. *)
Lemma edge_of_comm a b : edge_of a b = edge_of b a.
Proof.
  unfold edge_of.
  destruct (key_ltb b a) eqn:Hba, (key_ltb a b) eqn:Hab; try reflexivity.
  - exfalso. apply key_ltb_spec in Hba, Hab.
    destruct Hba as [Hba|[Er Hba]], Hab as [Hab|[Er' Hab]].
    + exact (Qclt_not_le _ _ Hba (Qclt_le_weak _ _ Hab)).
    + rewrite Er' in Hba. exact (Qclt_not_eq _ _ Hba eq_refl).
    + rewrite Er in Hab. exact (Qclt_not_eq _ _ Hab eq_refl).
    + exact (Qclt_not_le _ _ Hba (Qclt_le_weak _ _ Hab)).
  - assert (Hnba : ¬ (real b < real a ∨ (real b = real a ∧ imag b < imag a)))
      by (rewrite <- key_ltb_spec, Hba; discriminate).
    assert (Hnab : ¬ (real a < real b ∨ (real a = real b ∧ imag a < imag b)))
      by (rewrite <- key_ltb_spec, Hab; discriminate).
    assert (Er : real a = real b).
    { apply Qcle_antisym; apply Qcnot_lt_le; tauto. }
    assert (Ei : imag a = imag b).
    { apply Qcle_antisym; apply Qcnot_lt_le; intros Hlt;
        [apply Hnba | apply Hnab]; right; auto. }
    destruct a, b. unfold real, imag in *. simpl in *. congruence.
Qed.

(** ** Face extractor: sets, dictionaries, paths *)

Lemma elem_of_set_add {A} `{EqDecision A} (x y : A) (s : list A) :
  x ∈ set_add y s ↔ x = y ∨ x ∈ s.
Proof.
  unfold set_add. destruct (decide (y ∈ s)) as [Hin|Hout].
  - split; [auto | intros [->|?]; assumption].
  - rewrite elem_of_app, list_elem_of_singleton. tauto.
Qed.

Lemma dict_get_elem_of g k adj : dict_get g k = Ok adj → (k, adj) ∈ g.
Proof.
  induction g as [|[k' v] g IH]; simpl; [discriminate|].
  destruct (decide (k = k')) as [->|Hne].
  - intros [= ->]. apply list_elem_of_here.
  - intros Hg. apply list_elem_of_further, IH, Hg.
Qed.

Lemma dict_get_keys g k : k ∈ dict_keys g → ∃ adj, dict_get g k = Ok adj.
Proof.
  induction g as [|[k' v] g IH]; simpl.
  - intros Hin. apply elem_of_nil in Hin. contradiction.
  - intros Hin. destruct (decide (k = k')) as [->|Hne]; [eauto|].
    apply elem_of_cons in Hin as [?|Hin]; [contradiction|]. apply IH, Hin.
Qed.

Lemma elem_of_all_neighbors g k adj n :
  (k, adj) ∈ g → n ∈ adj → n ∈ all_neighbors g.
Proof.
  intros Hin Hn. unfold all_neighbors.
  apply list_elem_of_In, in_flat_map. exists (k, adj).
  split; apply list_elem_of_In; assumption.
Qed.

Lemma graph_closed_neighbor g k adj n :
  graph_closed g → (k, adj) ∈ g → n ∈ adj → n ∈ dict_keys g.
Proof.
  intros Hc Hin Hn. unfold graph_closed in Hc.
  rewrite Forall_forall in Hc.
  specialize (Hc _ Hin). simpl in Hc.
  rewrite Forall_forall in Hc. apply Hc, Hn.
Qed.

Lemma consecutive_pairs_snoc {A} (l : list A) (x y : A) :
  last l = Some x →
  consecutive_pairs (l ++ [y]) = consecutive_pairs l ++ [(x, y)].
Proof.
  induction l as [|a [|b l] IH]; simpl.
  - discriminate.
  - intros [= ->]. reflexivity.
  - intros Hl. simpl in IH. rewrite IH by exact Hl. reflexivity.
Qed.

Lemma path_edges_snoc path current next :
  last path = Some current →
  path_edges (path ++ [next]) = path_edges path ++ [edge_of current next].
Proof.
  intros Hl. unfold path_edges.
  rewrite (consecutive_pairs_snoc _ current) by exact Hl.
  rewrite map_app. reflexivity.
Qed.

Lemma closing_edge_spec path start current :
  head path = Some start → last path = Some current →
  closing_edge path = [edge_of current start].
Proof.
  intros Hh Hl. unfold closing_edge.
  destruct path as [|a path]; [discriminate|].
  injection Hh as ->.
  rewrite <- (rev_involutive (start :: path)) in Hl.
  destruct (rev (start :: path)) as [|c r] eqn:E.
  - discriminate.
  - simpl in Hl. rewrite last_snoc in Hl. injection Hl as ->. reflexivity.
Qed.

Lemma elem_of_mark_cycle path current start visited_edges e :
  head path = Some start → last path = Some current →
  e ∈ mark_cycle path current start visited_edges ↔
  e ∈ visited_edges ∨ e ∈ cycle_edges path.
Proof.
  intros Hh Hl. unfold mark_cycle, cycle_edges.
  rewrite (closing_edge_spec path start current) by assumption.
  rewrite elem_of_set_add, elem_of_app, list_elem_of_singleton.
  unfold path_edges.
  assert (Hfold : ∀ pairs v,
            e ∈ fold_left (fun v '(a, b) => set_add (edge_of a b) v) pairs v
            ↔ e ∈ v ∨ e ∈ map (fun '(a, b) => edge_of a b) pairs).
  { induction pairs as [|[a b] pairs IH]; intros v; simpl.
    - rewrite elem_of_nil. tauto.
    - rewrite IH, elem_of_set_add, elem_of_cons. tauto. }
  rewrite Hfold. tauto.
Qed.

Lemma choose_rightmost_in `{Numpy} current previous neighbors n :
  _choose_rightmost_neighbor current previous neighbors = Ok n →
  n ∈ neighbors.
Proof.
  unfold _choose_rightmost_neighbor.
  destruct neighbors as [|first rest]; [discriminate|].
  intros [= <-].
  set (f := fun '(best_neighbor, best_angle) neighbor => _).
  assert (Hfold : ∀ l (acc : complex * option Qc) (L : list complex),
            fst acc ∈ L → (∀ x, x ∈ l → x ∈ L) →
            fst (fold_left f l acc) ∈ L).
  { induction l as [|x l IH]; intros [b a] L Hacc Hsub; simpl; [exact Hacc|].
    apply IH.
    - destruct (lt_best _ a); simpl; [|exact Hacc].
      apply Hsub, list_elem_of_here.
    - intros y Hy. apply Hsub, list_elem_of_further, Hy. }
  apply Hfold; [apply list_elem_of_here|].
  intros x Hx. apply list_elem_of_further, Hx.
Qed.

Lemma penultimate_ok path :
  (2 ≤ length path)%nat → ∃ p, penultimate path = Ok p.
Proof.
  intros Hlen. unfold penultimate.
  rewrite <- length_rev in Hlen.
  destruct (rev path) as [|a [|b r]]; simpl in Hlen; [lia | lia | eauto].
Qed.

(** ** Face extractor: one walk *)

#[local] Arguments _choose_rightmost_neighbor : simpl never.
#[local] Arguments penultimate : simpl never.

Lemma next_node_in `{Numpy} path current first others next :
  match others with
  | [] => Ok first
  | _ =>
      previous ← penultimate path;
      _choose_rightmost_neighbor current previous (first :: others)
  end = Ok next →
  next ∈ first :: others.
Proof.
  destruct others as [|second others].
  - intros [= <-]. apply list_elem_of_here.
  - destruct (penultimate path) as [previous|]; simpl; [|discriminate].
    apply choose_rightmost_in.
Qed.

Lemma head_snoc {A} (l : list A) (x y : A) :
  head l = Some x → head (l ++ [y]) = Some x.
Proof. destruct l; [discriminate | exact id]. Qed.

(** What a walk that ends has done: it only went along edges that were
    unvisited when it started; when it closed, its path has at least three
    nodes and the marking added exactly the edges of the cycle. *)
Lemma walk_loop_sound `{Numpy} g start visited_edges :
  ∀ fuel path visited_nodes current w,
    walk_loop fuel g start visited_edges path visited_nodes current = Ok w →
    head path = Some start →
    last path = Some current →
    Forall (fun e => e ∉ visited_edges) (path_edges path) →
    match w with
    | Closed p visited_edges' =>
        head p = Some start
        ∧ Forall (fun e => e ∉ visited_edges) (cycle_edges p)
        ∧ (3 ≤ length p)%nat
        ∧ (∀ e, e ∈ visited_edges' ↔ e ∈ visited_edges ∨ e ∈ cycle_edges p)
    | DeadEnd p =>
        head p = Some start
        ∧ Forall (fun e => e ∉ visited_edges) (path_edges p)
    end.
Proof.
  induction fuel as [|fuel IH]; intros path visited_nodes current w;
    simpl; [discriminate|].
  destruct (dict_get g current) as [adj|]; simpl; [|discriminate].
  destruct (can_close adj start current visited_edges path) eqn:Hclose.
  - intros [= <-] Hh Hl Hpath.
    unfold can_close in Hclose.
    apply andb_true_iff in Hclose as [Hclose Hlen].
    apply andb_true_iff in Hclose as [_ Hedge].
    apply bool_decide_eq_true in Hlen, Hedge.
    split; [exact Hh|]. split; [|split; [exact Hlen|]].
    + unfold cycle_edges.
      rewrite (closing_edge_spec path start current) by assumption.
      apply Forall_app. split; [exact Hpath|].
      apply Forall_singleton. exact Hedge.
    + intros e. apply elem_of_mark_cycle; assumption.
  - destruct (filter (eligible current visited_edges visited_nodes) adj)
      as [|first others] eqn:Hnb.
    + intros [= <-] Hh Hl Hpath. split; assumption.
    + destruct (match others with [] => Ok first | _ => _ end)
        as [next|] eqn:Hnext; simpl; [|discriminate].
      intros Hw Hh Hl Hpath.
      apply next_node_in in Hnext. rewrite <- Hnb in Hnext.
      apply list_elem_of_filter in Hnext as [[Hedge _] _].
      apply (IH _ _ _ _ Hw).
      * apply head_snoc, Hh.
      * apply last_snoc.
      * rewrite (path_edges_snoc _ current) by exact Hl.
        apply Forall_app. split; [exact Hpath|].
        apply Forall_singleton. exact Hedge.
Qed.

Lemma filter_unvisited_shrinks (next : complex) (visited_nodes l : list complex) :
  next ∈ l → next ∉ visited_nodes →
  (length (filter (fun x => x ∉ set_add next visited_nodes) l)
   < length (filter (fun x => x ∉ visited_nodes) l))%nat.
Proof.
  intros Hin Hout.
  induction l as [|x l IH]; [apply elem_of_nil in Hin; contradiction|].
  assert (Hle : (length (filter (fun x => x ∉ set_add next visited_nodes) l)
                 ≤ length (filter (fun x => x ∉ visited_nodes) l))%nat).
  { clear. induction l as [|y l IH]; [reflexivity|].
    rewrite !filter_cons.
    destruct (decide (y ∉ set_add next visited_nodes)) as [Hy|Hy];
      destruct (decide (y ∉ visited_nodes)) as [Hy'|Hy']; simpl; try lia.
    exfalso. apply Hy'. intros Hv. apply Hy. rewrite elem_of_set_add. tauto. }
  rewrite !filter_cons.
  destruct (decide (x = next)) as [->|Hne].
  - rewrite decide_False, decide_True by
      (try exact Hout; rewrite elem_of_set_add; tauto).
    simpl. lia.
  - apply elem_of_cons in Hin as [->|Hin]; [contradiction|].
    specialize (IH Hin).
    destruct (decide (x ∉ set_add next visited_nodes)) as [Hy|Hy];
      destruct (decide (x ∉ visited_nodes)) as [Hy'|Hy']; simpl; try lia.
    exfalso. apply Hy'. intros Hv. apply Hy. rewrite elem_of_set_add. tauto.
Qed.

Lemma dict_get_raise g k e : dict_get g k = Raise e → e = KeyError.
Proof.
  induction g as [|[k' v] g IH]; simpl; [intros [= <-]; reflexivity|].
  destruct (decide (k = k')); [discriminate | exact IH].
Qed.

Lemma next_node_raise `{Numpy} path current first others e :
  match others with
  | [] => Ok first
  | _ =>
      previous ← penultimate path;
      _choose_rightmost_neighbor current previous (first :: others)
  end = Raise e →
  e = IndexError.
Proof.
  destruct others as [|second others]; [discriminate|].
  unfold penultimate.
  destruct (rev path) as [|a [|b r]]; simpl;
    [intros [= <-]; reflexivity | intros [= <-]; reflexivity |].
  unfold _choose_rightmost_neighbor. discriminate.
Qed.

(** The bound on the steps of a walk is never reached, on any graph. *)
Lemma walk_loop_fuel `{Numpy} g start visited_edges :
  ∀ fuel path visited_nodes current,
    (length (filter (fun x => x ∉ visited_nodes) (all_neighbors g)) < fuel)%nat →
    walk_loop fuel g start visited_edges path visited_nodes current
    ≠ Raise OutOfFuel.
Proof.
  induction fuel as [|fuel IH]; intros path visited_nodes current Hfuel; [lia|].
  simpl. destruct (dict_get g current) as [adj|e] eqn:Hadj; simpl.
  2: { apply dict_get_raise in Hadj as ->. discriminate. }
  destruct (can_close adj start current visited_edges path); [discriminate|].
  destruct (filter (eligible current visited_edges visited_nodes) adj)
    as [|first others] eqn:Hnb; [discriminate|].
  destruct (match others with [] => Ok first | _ => _ end)
    as [next|e] eqn:Hnext; simpl.
  2: { apply next_node_raise in Hnext as ->. discriminate. }
  apply next_node_in in Hnext. rewrite <- Hnb in Hnext.
  apply list_elem_of_filter in Hnext as [[_ Hnew] Hin].
  apply dict_get_elem_of in Hadj.
  apply IH.
  pose proof (filter_unvisited_shrinks next visited_nodes (all_neighbors g)
                (elem_of_all_neighbors _ _ _ _ Hadj Hin) Hnew).
  lia.
Qed.

Lemma first_walk_fuel `{Numpy} g start current visited_edges :
  first_walk g start current visited_edges ≠ Raise OutOfFuel.
Proof.
  unfold first_walk. apply walk_loop_fuel. unfold walk_fuel.
  pose proof (length_filter (fun x => x ∉ set_add current [start])
                (all_neighbors g)).
  lia.
Qed.

(** A walk in a closed graph ends: no key is missing, no index is out of
    range, and the bound on its steps is never reached. *)
Lemma walk_loop_ok `{Numpy} g start visited_edges :
  graph_closed g →
  ∀ fuel path visited_nodes current,
    current ∈ dict_keys g →
    (2 ≤ length path)%nat →
    (length (filter (fun x => x ∉ visited_nodes) (all_neighbors g)) < fuel)%nat →
    ∃ w, walk_loop fuel g start visited_edges path visited_nodes current
         = Ok w.
Proof.
  intros Hclosed.
  induction fuel as [|fuel IH]; intros path visited_nodes current Hkey Hlen Hfuel;
    [lia|].
  simpl. destruct (dict_get_keys _ _ Hkey) as [adj Hadj]. rewrite Hadj. simpl.
  destruct (can_close adj start current visited_edges path); [eauto|].
  destruct (filter (eligible current visited_edges visited_nodes) adj)
    as [|first others] eqn:Hnb; [eauto|].
  assert (Hnext : ∃ next,
            match others with
            | [] => Ok first
            | _ =>
                previous ← penultimate path;
                _choose_rightmost_neighbor current previous (first :: others)
            end = Ok next).
  { destruct others as [|second others]; [eauto|].
    destruct (penultimate_ok path Hlen) as [previous ->]. simpl. eauto. }
  destruct Hnext as [next Hnext]. rewrite Hnext. simpl.
  apply next_node_in in Hnext. rewrite <- Hnb in Hnext.
  apply list_elem_of_filter in Hnext as [[_ Hnew] Hin].
  apply dict_get_elem_of in Hadj.
  apply IH.
  - eapply graph_closed_neighbor; eassumption.
  - rewrite length_app. simpl. lia.
  - pose proof (filter_unvisited_shrinks next visited_nodes (all_neighbors g)
                  (elem_of_all_neighbors _ _ _ _ Hadj Hin) Hnew).
    lia.
Qed.

Lemma first_walk_ok `{Numpy} g start current visited_edges :
  graph_closed g → current ∈ dict_keys g →
  ∃ w, first_walk g start current visited_edges = Ok w.
Proof.
  intros Hclosed Hkey. unfold first_walk.
  apply walk_loop_ok; [assumption | assumption | simpl; lia |].
  unfold walk_fuel.
  pose proof (length_filter (fun x => x ∉ set_add current [start])
                (all_neighbors g)).
  lia.
Qed.

Lemma first_walk_sound `{Numpy} g start current visited_edges w :
  first_walk g start current visited_edges = Ok w →
  edge_of start current ∉ visited_edges →
  match w with
  | Closed p visited_edges' =>
      head p = Some start
      ∧ Forall (fun e => e ∉ visited_edges) (cycle_edges p)
      ∧ (3 ≤ length p)%nat
      ∧ (∀ e, e ∈ visited_edges' ↔ e ∈ visited_edges ∨ e ∈ cycle_edges p)
  | DeadEnd p =>
      head p = Some start
      ∧ Forall (fun e => e ∉ visited_edges) (path_edges p)
  end.
Proof.
  intros Hw Hedge. unfold first_walk in Hw.
  apply (walk_loop_sound _ _ _ _ _ _ _ _ Hw); [reflexivity | reflexivity |].
  unfold path_edges. simpl. apply Forall_singleton. exact Hedge.
Qed.

(** ** Graph builder: the graph is closed and has one entry per key *)

Lemma graph_closed_iff g :
  graph_closed g ↔
  ∀ k adj n, (k, adj) ∈ g → n ∈ adj → n ∈ dict_keys g.
Proof.
  unfold graph_closed. rewrite Forall_forall. split.
  - intros Hc k adj n Hin Hn. specialize (Hc _ Hin). simpl in Hc.
    rewrite Forall_forall in Hc. apply Hc, Hn.
  - intros Hc [k adj] Hin. simpl. rewrite Forall_forall.
    intros n Hn. eapply Hc; eassumption.
Qed.

Lemma dict_keys_setdefault g k x :
  x ∈ dict_keys (dict_setdefault g k) ↔ x = k ∨ x ∈ dict_keys g.
Proof.
  unfold dict_setdefault. destruct (decide (k ∈ dict_keys g)) as [Hin|Hout].
  - split; [auto | intros [->|?]; assumption].
  - unfold dict_keys. rewrite map_app, elem_of_app. simpl.
    rewrite list_elem_of_singleton. tauto.
Qed.

Lemma elem_of_setdefault g k entry :
  entry ∈ dict_setdefault g k → entry ∈ g ∨ entry = (k, []).
Proof.
  unfold dict_setdefault. destruct (decide (k ∈ dict_keys g)); [auto|].
  rewrite elem_of_app, list_elem_of_singleton. tauto.
Qed.

Lemma NoDup_setdefault g k :
  NoDup (dict_keys g) → NoDup (dict_keys (dict_setdefault g k)).
Proof.
  intros Hnd. unfold dict_setdefault.
  destruct (decide (k ∈ dict_keys g)) as [Hin|Hout]; [exact Hnd|].
  unfold dict_keys. rewrite map_app. simpl.
  apply NoDup_app. split; [exact Hnd|]. split.
  - intros x Hx Hk. apply list_elem_of_singleton in Hk as ->. contradiction.
  - apply NoDup_singleton.
Qed.

Lemma dict_keys_append g k v : dict_keys (dict_append g k v) = dict_keys g.
Proof.
  induction g as [|[k' l] g IH]; simpl; [reflexivity|].
  destruct (decide (k = k')); simpl; [reflexivity|].
  rewrite IH. reflexivity.
Qed.

Lemma elem_of_dict_append g k v k' adj :
  (k', adj) ∈ dict_append g k v →
  (k', adj) ∈ g ∨ ∃ l, (k', l) ∈ g ∧ adj = l ++ [v].
Proof.
  induction g as [|[k0 l0] g IH]; simpl.
  - intros Hin. apply elem_of_nil in Hin. contradiction.
  - destruct (decide (k = k0)) as [->|Hne].
    + intros Hin. apply elem_of_cons in Hin as [[= -> ->]|Hin].
      * right. exists l0. split; [apply list_elem_of_here | reflexivity].
      * left. apply list_elem_of_further, Hin.
    + intros Hin. apply elem_of_cons in Hin as [[= -> ->]|Hin].
      * left. apply list_elem_of_here.
      * destruct (IH Hin) as [Hg|(l & Hg & ->)].
        -- left. apply list_elem_of_further, Hg.
        -- right. exists l. split; [apply list_elem_of_further, Hg|].
           reflexivity.
Qed.

Lemma graph_closed_append g k v :
  graph_closed g → v ∈ dict_keys g → graph_closed (dict_append g k v).
Proof.
  rewrite !graph_closed_iff. intros Hc Hv k' adj n Hin Hn.
  rewrite dict_keys_append.
  apply elem_of_dict_append in Hin as [Hin|(l & Hin & ->)].
  - eapply Hc; eassumption.
  - apply elem_of_app in Hn as [Hn|Hn].
    + eapply Hc; eassumption.
    + apply list_elem_of_singleton in Hn as ->. exact Hv.
Qed.

Lemma graph_closed_setdefault g k :
  graph_closed g → graph_closed (dict_setdefault g k).
Proof.
  rewrite !graph_closed_iff. intros Hc k' adj n Hin Hn.
  apply dict_keys_setdefault. right.
  apply elem_of_setdefault in Hin as [Hin|[= -> ->]].
  - eapply Hc; eassumption.
  - apply elem_of_nil in Hn. contradiction.
Qed.

Lemma add_edge_keys g a b x :
  x ∈ dict_keys (add_edge g a b) ↔ x = a ∨ x = b ∨ x ∈ dict_keys g.
Proof.
  unfold add_edge. rewrite !dict_keys_append, !dict_keys_setdefault. tauto.
Qed.

Lemma add_edge_closed g a b :
  graph_closed g → graph_closed (add_edge g a b).
Proof.
  intros Hc. unfold add_edge.
  apply graph_closed_append; [apply graph_closed_append|].
  - apply graph_closed_setdefault, graph_closed_setdefault, Hc.
  - rewrite !dict_keys_setdefault. tauto.
  - rewrite dict_keys_append, !dict_keys_setdefault. tauto.
Qed.

Lemma add_edge_NoDup g a b :
  NoDup (dict_keys g) → NoDup (dict_keys (add_edge g a b)).
Proof.
  intros Hnd. unfold add_edge. rewrite !dict_keys_append.
  apply NoDup_setdefault, NoDup_setdefault, Hnd.
Qed.

Lemma build_graph_loop_spec self segs :
  ∀ g g',
    build_graph_loop self segs g = Ok g' →
    graph_closed g → NoDup (dict_keys g) →
    graph_closed g' ∧ NoDup (dict_keys g')
    ∧ (∀ x, x ∈ dict_keys g → x ∈ dict_keys g')
    ∧ (∀ start end_ p,
         (start, end_) ∈ segs → p = start ∨ p = end_ →
         ∃ key, _round_point self p = Ok key ∧ key ∈ dict_keys g').
Proof.
  induction segs as [|[start end_] segs IH]; intros g g'; simpl.
  - intros [= <-] Hc Hnd. repeat split; try assumption.
    + auto.
    + intros s e p Hin. apply elem_of_nil in Hin. contradiction.
  - destruct (_round_point self start) as [start_key|] eqn:Hs; simpl;
      [|discriminate].
    destruct (_round_point self end_) as [end_key|] eqn:He; simpl;
      [|discriminate].
    intros Hb Hc Hnd.
    destruct (IH _ _ Hb (add_edge_closed _ _ _ Hc) (add_edge_NoDup _ _ _ Hnd))
      as (Hc' & Hnd' & Hsub & Hends).
    split; [exact Hc'|]. split; [exact Hnd'|]. split.
    + intros x Hx. apply Hsub, add_edge_keys. tauto.
    + intros s e p Hin Hp.
      apply elem_of_cons in Hin as [[= -> ->]|Hin].
      * destruct Hp as [->| ->].
        -- exists start_key. split; [exact Hs|].
           apply Hsub, add_edge_keys. tauto.
        -- exists end_key. split; [exact He|].
           apply Hsub, add_edge_keys. tauto.
      * eapply Hends; eassumption.
Qed.

Lemma build_segment_graph_spec self segs g :
  _build_segment_graph self segs = Ok g →
  graph_closed g ∧ NoDup (dict_keys g)
  ∧ (∀ start end_ p,
       (start, end_) ∈ segs → p = start ∨ p = end_ →
       ∃ key, _round_point self p = Ok key ∧ key ∈ dict_keys g).
Proof.
  intros Hb. unfold _build_segment_graph in Hb.
  destruct (build_graph_loop_spec _ _ _ _ Hb) as (Hc & Hnd & _ & Hends).
  - apply Forall_nil_2.
  - apply NoDup_nil_2.
  - auto.
Qed.

(** ** Face extractor: the whole pass *)

#[local] Arguments keep_cycle : simpl never.

Lemma keep_cycle_true p : (3 ≤ length p)%nat → keep_cycle (Some p) = true.
Proof.
  intros Hlen. unfold keep_cycle.
  destruct p as [|a p]; [simpl in Hlen; lia|].
  apply bool_decide_eq_true. exact Hlen.
Qed.

Lemma try_edge_cases `{Numpy} g s n cycles visited_edges st' :
  try_edge g s n (cycles, visited_edges) = Ok st' →
  ((edge_of s n ∈ visited_edges) ∧ st' = (cycles, visited_edges))
  ∨ ((edge_of s n ∉ visited_edges)
     ∧ ∃ w, first_walk g s n visited_edges = Ok w
            ∧ st' = match w with
                    | Closed p visited_edges' => (cycles ++ [p], visited_edges')
                    | DeadEnd _ => (cycles, visited_edges)
                    end).
Proof.
  unfold try_edge.
  destruct (decide (edge_of s n ∈ visited_edges)) as [Hin|Hout].
  - intros [= <-]. left. auto.
  - rewrite find_cycle_from_edge_unfold.
    destruct (first_walk g s n visited_edges) as [w|] eqn:Hw; simpl;
      [|discriminate].
    intros Hst. right. split; [exact Hout|]. exists w. split; [reflexivity|].
    pose proof (first_walk_sound _ _ _ _ _ Hw Hout) as Hsound.
    destruct w as [p v|p]; simpl in Hst.
    + destruct Hsound as (_ & _ & Hlen & _).
      rewrite (keep_cycle_true _ Hlen) in Hst. congruence.
    + congruence.
Qed.

Lemma try_edge_ok `{Numpy} g s n st :
  graph_closed g → n ∈ dict_keys g → ∃ st', try_edge g s n st = Ok st'.
Proof.
  intros Hc Hn. destruct st as [cycles visited_edges]. unfold try_edge.
  destruct (decide (edge_of s n ∈ visited_edges)); [eauto|].
  rewrite find_cycle_from_edge_unfold.
  destruct (first_walk_ok g s n visited_edges Hc Hn) as [w ->]. simpl.
  destruct w as [p v|p]; simpl; [destruct (keep_cycle (Some p))|]; eauto.
Qed.

Lemma pass_ok_nil st : pass_ok st [] st.
Proof.
  unfold pass_ok. simpl. rewrite app_nil_r.
  split; [reflexivity|]. split; [intros e He; exact He|]. split.
  - intros w Hw. apply elem_of_nil in Hw. contradiction.
  - intros i j wi wj _ Hi. rewrite lookup_nil in Hi. discriminate.
Qed.

Lemma closed_paths_app l1 l2 :
  closed_paths (l1 ++ l2) = closed_paths l1 ++ closed_paths l2.
Proof. unfold closed_paths. apply omap_app. Qed.

Lemma pass_ok_app st st1 st2 l1 l2 :
  pass_ok st l1 st1 → pass_ok st1 l2 st2 → pass_ok st (l1 ++ l2) st2.
Proof.
  intros (Hc1 & Hs1 & Hw1 & Ho1) (Hc2 & Hs2 & Hw2 & Ho2).
  unfold pass_ok. split; [|split; [|split]].
  - rewrite Hc2, Hc1, closed_paths_app, app_assoc. reflexivity.
  - intros e He. apply Hs2, Hs1, He.
  - intros w Hw. apply elem_of_app in Hw as [Hw|Hw].
    + destruct (Hw1 _ Hw) as (Ha & Hb & Hm & Hok).
      repeat split; try assumption.
      * intros e He. apply Hs2, Hb, He.
      * intros e He. apply Hs2, Hm, He.
      * apply Hok.
      * apply Hok.
    + destruct (Hw2 _ Hw) as (Ha & Hb & Hm & Hok).
      repeat split; try assumption.
      * intros e He. apply Ha, Hs1, He.
      * apply Hok.
      * apply Hok.
  - intros i j wi wj Hij Hi Hj.
    apply lookup_app_Some in Hi as [Hi|[Hli Hi]];
      apply lookup_app_Some in Hj as [Hj|[Hlj Hj]].
    + eapply Ho1; eassumption.
    + assert (Hin : wi ∈ l1) by (eapply list_elem_of_lookup_2; eassumption).
      assert (Hjn : wj ∈ l2) by (eapply list_elem_of_lookup_2; eassumption).
      destruct (Hw1 _ Hin) as (_ & _ & Hm & _).
      destruct (Hw2 _ Hjn) as (Ha & _).
      intros e He. apply Ha, Hm, He.
    + apply lookup_lt_Some in Hj. lia.
    + eapply (Ho2 (i - length l1)%nat (j - length l1)%nat);
        [lia | eassumption | eassumption].
Qed.

(** One turn of the inner loop. *)
Lemma try_edge_step `{Numpy} g s n st st' :
  try_edge g s n st = Ok st' →
  cycles_inv st →
  cycles_inv st'
  ∧ (((edge_of s n ∈ snd st) ∧ st' = st)
     ∨ ((edge_of s n ∉ snd st)
        ∧ ∃ w, first_walk g s n (snd st) = Ok w
               ∧ pass_ok st [mkWalk (snd st) s n w] st')).
Proof.
  destruct st as [cycles visited_edges]. intros Htry Hinv.
  apply try_edge_cases in Htry as [[Hin ->]|(Hout & w & Hw & ->)].
  - split; [exact Hinv | left; auto].
  - pose proof (first_walk_sound _ _ _ _ _ Hw Hout) as Hsound.
    destruct Hinv as (Hmarked & Hdisj & Hlen3).
    destruct w as [p v|p]; simpl in *.
    + destruct Hsound as (Hhead & Hfresh & Hlen & Hmark).
      rewrite Forall_forall in Hfresh.
      split.
      * unfold cycles_inv. simpl. split; [|split].
        -- intros c e Hc He. apply Hmark.
           apply elem_of_app in Hc as [Hc|Hc].
           ++ left. eapply Hmarked; eassumption.
           ++ apply list_elem_of_singleton in Hc as ->. right. exact He.
        -- intros i j ci cj Hij Hi Hj e He Hej.
           apply lookup_app_Some in Hj as [Hj|[Hlj Hj]].
           ++ assert (Hi' : cycles !! i = Some ci).
              { apply lookup_lt_Some in Hj.
                rewrite lookup_app_l in Hi by lia. exact Hi. }
              eapply Hdisj; eassumption.
           ++ apply list_lookup_singleton_Some in Hj as [Hj0 <-].
              assert (Hi' : cycles !! i = Some ci).
              { rewrite lookup_app_l in Hi by lia. exact Hi. }
              apply (Hfresh e Hej).
              eapply Hmarked; [|exact He].
              eapply list_elem_of_lookup_2, Hi'.
        -- apply Forall_app. split; [exact Hlen3|].
           apply Forall_singleton. exact Hlen.
      * right. split; [exact Hout|]. exists (Closed p v). split; [exact Hw|].
        unfold pass_ok. simpl. split; [reflexivity|]. split; [|split].
        -- intros e He. apply Hmark. auto.
        -- intros w Hw'. apply list_elem_of_singleton in Hw' as ->. simpl.
           split; [intros e He; exact He|].
           split; [intros e He; apply Hmark; auto|].
           split; [intros e He; exact He|].
           unfold walk_ok, walk_edges. simpl.
           split; [apply Forall_forall, Hfresh|]. split; assumption.
        -- intros i j wi wj Hij Hi Hj.
           apply list_lookup_singleton_Some in Hi as [-> _].
           apply list_lookup_singleton_Some in Hj as [-> _]. lia.
    + destruct Hsound as (Hhead & Hfresh).
      split; [unfold cycles_inv; simpl; auto|].
      right. split; [exact Hout|]. exists (DeadEnd p). split; [exact Hw|].
      unfold pass_ok. simpl. rewrite app_nil_r.
      split; [reflexivity|]. split; [intros e He; exact He|]. split.
      * intros w Hw'. apply list_elem_of_singleton in Hw' as ->. simpl.
        split; [intros e He; exact He|].
        split; [intros e He; exact He|].
        split; [intros e He; apply elem_of_nil in He; contradiction|].
        unfold walk_ok, walk_edges. simpl. split; [exact Hfresh | exact I].
      * intros i j wi wj Hij Hi Hj.
        apply list_lookup_singleton_Some in Hi as [-> _].
        apply list_lookup_singleton_Some in Hj as [-> _]. lia.
Qed.

Lemma from_node_spec `{Numpy} g s :
  graph_closed g →
  ∀ adj st,
    (∀ n, n ∈ adj → n ∈ dict_keys g) →
    cycles_inv st →
    ∃ st' log,
      cycles_from_node g s adj st = Ok st'
      ∧ walks_from_node g s adj st = Ok log
      ∧ pass_ok st log st'
      ∧ cycles_inv st'.
Proof.
  intros Hclosed.
  induction adj as [|n adj IH]; intros st Hkeys Hinv.
  - exists st, []. simpl.
    split; [reflexivity|]. split; [reflexivity|].
    split; [apply pass_ok_nil | exact Hinv].
  - destruct (try_edge_ok g s n st Hclosed) as [st1 Htry].
    { apply Hkeys, list_elem_of_here. }
    destruct (try_edge_step _ _ _ _ _ Htry Hinv) as [Hinv1 Hcase].
    destruct (IH st1) as (st' & rest & Hc & Hw & Hpass & Hinv');
      [intros x Hx; apply Hkeys, list_elem_of_further, Hx | exact Hinv1 |].
    simpl. rewrite Htry. simpl. rewrite Hc, Hw. simpl.
    destruct Hcase as [[Hin ->]|(Hout & w & Hfirst & Hstep)].
    + exists st', rest. rewrite decide_True by exact Hin. auto.
    + exists st', (mkWalk (snd st) s n w :: rest).
      rewrite decide_False by exact Hout. rewrite Hfirst. simpl.
      split; [reflexivity|]. split; [reflexivity|]. split; [|exact Hinv'].
      apply (pass_ok_app st st1 st' [mkWalk (snd st) s n w] rest);
        assumption.
Qed.

Lemma loop_spec `{Numpy} g :
  graph_closed g →
  ∀ nodes st,
    (∀ k, k ∈ nodes → k ∈ dict_keys g) →
    cycles_inv st →
    ∃ st' log,
      cycles_loop g nodes st = Ok st'
      ∧ walks_loop g nodes st = Ok log
      ∧ pass_ok st log st'
      ∧ cycles_inv st'.
Proof.
  intros Hclosed.
  induction nodes as [|k nodes IH]; intros st Hkeys Hinv.
  - exists st, []. simpl.
    split; [reflexivity|]. split; [reflexivity|].
    split; [apply pass_ok_nil | exact Hinv].
  - destruct (dict_get_keys g k) as [adj Hadj];
      [apply Hkeys, list_elem_of_here|].
    destruct (from_node_spec g k Hclosed adj st)
      as (st1 & here & Hc1 & Hw1 & Hpass1 & Hinv1); [|exact Hinv|].
    { intros n Hn. eapply graph_closed_neighbor; [exact Hclosed| |exact Hn].
      apply dict_get_elem_of, Hadj. }
    destruct (IH st1) as (st' & rest & Hc & Hw & Hpass & Hinv');
      [intros x Hx; apply Hkeys, list_elem_of_further, Hx | exact Hinv1 |].
    exists st', (here ++ rest).
    simpl. rewrite Hadj. simpl. rewrite Hc1, Hw1. simpl. rewrite Hc, Hw.
    simpl.
    split; [reflexivity|]. split; [reflexivity|]. split; [|exact Hinv'].
    eapply pass_ok_app; eassumption.
Qed.

Lemma cycles_inv_init : cycles_inv ([], []).
Proof.
  unfold cycles_inv. simpl. split; [|split].
  - intros c e Hc. apply elem_of_nil in Hc. contradiction.
  - intros i j ci cj _ Hi. rewrite lookup_nil in Hi. discriminate.
  - apply Forall_nil_2.
Qed.

(** The extraction pass on a closed graph runs to its end, and this is what
    it has done. *)
Lemma find_cycles_spec `{Numpy} g :
  graph_closed g →
  ∃ cycles visited_edges log,
    _find_cycles_in_graph g = Ok cycles
    ∧ extraction_walks g = Ok log
    ∧ pass_ok ([], []) log (cycles, visited_edges)
    ∧ cycles_inv (cycles, visited_edges).
Proof.
  intros Hclosed.
  destruct (loop_spec g Hclosed (dict_keys g) ([], []))
    as ([cycles visited_edges] & log & Hc & Hw & Hpass & Hinv);
    [auto | apply cycles_inv_init |].
  exists cycles, visited_edges, log.
  unfold _find_cycles_in_graph, extraction_walks. rewrite Hc, Hw.
  auto.
Qed.



(** ** The pipeline: side counts *)

Lemma find_polygons_inv `{Numpy} `{Shapely} self segs polys :
  returned (find_polygons self segs) = Ok polys →
  ∃ self' cycles,
    tolerance self' = tolerance self
    ∧ Forall (fun c => (3 ≤ length c)%nat) cycles
    ∧ polys = _validate_polygons self' cycles.
Proof.
  unfold find_polygons.
  destruct (_find_intersections _) as [self'|] eqn:Hi; simpl; [|discriminate].
  destruct (_build_segment_graph _ _) as [g|] eqn:Hg; simpl; [|discriminate].
  destruct (_find_cycles_in_graph g) as [cycles|] eqn:Hc; simpl;
    [|discriminate].
  intros [= <-]. exists self', cycles.
  split; [apply find_intersections_tolerance in Hi; exact Hi|].
  split; [|reflexivity].
  apply build_segment_graph_spec in Hg as (Hclosed & _).
  destruct (find_cycles_spec g Hclosed)
    as (cycles' & visited_edges & log & Hc' & _ & _ & Hinv).
  rewrite Hc in Hc'. injection Hc' as <-.
  apply Hinv.
Qed.

(** C8.  Every polygon [find_polygons] returns has between 3 and
    [MAX_SIDES] = 6 vertices: the extractor keeps cycles of at least three
    nodes, the validator those of at most six, and de-nesting only
    removes. *)
Theorem polygon_sides_bounded `{Numpy} `{Shapely}
    (self : GeometryProcessor) (line_segments : list segment)
    (polys : list Polygon) :
  returned (find_polygons self line_segments) = Ok polys →
  ∀ p, p ∈ polys → (3 ≤ length (exterior p) ≤ MAX_SIDES)%nat.
Proof.
  intros Hrun p Hin.
  apply find_polygons_inv in Hrun as (self' & cycles & _ & Hlen & ->).
  apply elem_of_validate_polygons in Hin as (c & Hc & Hv).
  apply validate_cycle_Some in Hv as (-> & _ & _ & _ & Hmax).
  simpl. rewrite length_map.
  rewrite Forall_forall in Hlen. split; [apply Hlen, Hc | exact Hmax].
Qed.

Lemma polygon_sides_bounded_witness :
  let self := __init__ (ofZ 1 / ofZ 10) in
  let square :=
    [(pt 0 0, pt 50 0); (pt 50 0, pt 50 50); (pt 50 50, pt 0 50);
     (pt 0 50, pt 0 0)] in
  let p :=
    mkPolygon [(ofZ 0, ofZ 0); (ofZ 50, ofZ 0); (ofZ 50, ofZ 50);
               (ofZ 0, ofZ 50)] in
  returned (find_polygons (H := NumpyModel.numpy)
              (H0 := ShapelyModel.shapely) self square) = Ok [p]
  ∧ (3 ≤ length (exterior p) ≤ MAX_SIDES)%nat.
Proof.
  intros self square p.
  assert (Hrun : returned (find_polygons (H := NumpyModel.numpy)
                             (H0 := ShapelyModel.shapely) self square)
                 = Ok [p]).
  { apply (bool_decide_unpack _). vm_compute. exact I. }
  split; [exact Hrun|].
  apply (polygon_sides_bounded (H := NumpyModel.numpy)
           (H0 := ShapelyModel.shapely) self square [p] Hrun).
  apply list_elem_of_here.
Defined.

(** ** The square scenario *)

Lemma same_ring_refl {A} (l : list A) : same_ring l l.
Proof.
  exists 0%nat. left. unfold rotate.
  rewrite Nat.Div0.mod_0_l. simpl. apply app_nil_r.
Qed.

(** C2.  The four sides of the square of side 50, tolerance 0.1: exactly
    one polygon, with vertices (0,0), (50,0), (50,50), (0,50) in this order
    (so also up to rotation and direction) and area 2500.  The walk never
    has to choose between neighbours, so this holds whatever numpy's angles
    are; the shapely operations are those of the reference model. *)
Theorem square_scenario `{Numpy} :
  let self := __init__ (ofZ 1 / ofZ 10) in
  let square :=
    [(pt 0 0, pt 50 0); (pt 50 0, pt 50 50); (pt 50 50, pt 0 50);
     (pt 0 50, pt 0 0)] in
  let vertices :=
    [(ofZ 0, ofZ 0); (ofZ 50, ofZ 0); (ofZ 50, ofZ 50); (ofZ 0, ofZ 50)] in
  ∃ p,
    returned (find_polygons (H0 := ShapelyModel.shapely) self square)
    = Ok [p]
    ∧ exterior p = vertices
    ∧ same_ring (exterior p) vertices
    ∧ area (Shapely := ShapelyModel.shapely) p = ofZ 2500.
Proof.
  intros self square vertices. exists (mkPolygon vertices).
  split; [|split; [|split]].
  - apply (bool_decide_unpack _). vm_compute. exact I.
  - reflexivity.
  - apply same_ring_refl.
  - apply (bool_decide_unpack _). vm_compute. exact I.
Qed.

(** ** Rounding *)

Lemma this_ofZ k : (this (ofZ k) == inject_Z k)%Q.
Proof. unfold ofZ. simpl. apply Qred_correct. Qed.

Lemma this_half : this (1 / ofZ 2) = (1 # 2)%Q.
Proof. reflexivity. Qed.

Lemma this_minus (x y : Qc) : (this (x - y) == this x - this y)%Q.
Proof.
  unfold Qcminus, Qcplus, Qcopp, Q2Qc. simpl.
  rewrite !Qred_correct. reflexivity.
Qed.

Lemma this_plus (x y : Qc) : (this (x + y) == this x + this y)%Q.
Proof. unfold Qcplus, Q2Qc. simpl. rewrite !Qred_correct. reflexivity. Qed.

Lemma this_mult (x y : Qc) : (this (x * y) == this x * this y)%Q.
Proof. unfold Qcmult, Q2Qc. simpl. apply Qred_correct. Qed.

Lemma ten_div (q : Qc) : (10 * this (q / ofZ 10) == this q)%Q.
Proof.
  assert (H : ofZ 10 * (q / ofZ 10) = q)
    by (apply Qcmult_div_r; discriminate).
  apply (f_equal this) in H. rewrite <- H.
  rewrite this_mult. reflexivity.
Qed.

Lemma ilog10_spec fuel :
  ∀ q, 1 ≤ q → q < ofZ (2 ^ Z.of_nat fuel) →
       pow10 (ilog10 fuel q) ≤ q ∧ q < pow10 (S (ilog10 fuel q)).
Proof.
  induction fuel as [|fuel IH]; intros q H1 Hb.
  - exfalso. eapply Qclt_not_le; [exact Hb | exact H1].
  - simpl ilog10. destruct (Qc_leb (ofZ 10) q) eqn:E.
    + apply Qc_leb_spec in E.
      pose proof (ten_div q) as Hd.
      destruct (IH (q / ofZ 10)) as [Hlo Hhi].
      * unfold Qcle in *. change (this 1) with 1%Q in *.
        change (this (ofZ 10)) with 10%Q in E. lra.
      * unfold Qclt in *. rewrite this_ofZ in *.
        rewrite Nat2Z.inj_succ, Z.pow_succ_r, inject_Z_mult in Hb by lia.
        change (inject_Z 2) with 2%Q in Hb.
        assert (0 <= inject_Z (2 ^ Z.of_nat fuel))%Q.
        { change 0%Q with (inject_Z 0). rewrite <- Zle_Qle.
          apply Z.pow_nonneg. lia. }
        generalize dependent (inject_Z (2 ^ Z.of_nat fuel)). intros. lra.
      * unfold pow10 in *. simpl Qcpower in *.
        unfold Qcle, Qclt in *. rewrite !this_mult in *.
        change (this (ofZ 10)) with 10%Q in *.
        generalize dependent (this (ofZ 10 ^ ilog10 fuel (q / ofZ 10))).
        intros. lra.
    + assert (Hn : ¬ ofZ 10 ≤ q) by (rewrite <- Qc_leb_spec, E; discriminate).
      apply Qcnot_le_lt in Hn. unfold pow10. simpl.
      split; [exact H1|]. rewrite Qcmult_1_r. exact Hn.
Qed.

Lemma log10_fuel_enough q : 1 ≤ q → q < ofZ (2 ^ Z.of_nat (log10_fuel q)).
Proof.
  intros H1. unfold Qclt. rewrite this_ofZ. unfold log10_fuel, Qcle in *.
  destruct q as [[a b] Hcanon]. simpl in *.
  unfold Qle in H1. simpl in H1.
  destruct a as [|a|a]; [lia | | lia].
  assert (Hs : (Z.pos a < 2 ^ Z.of_nat (Pos.size_nat a))%Z).
  { apply Zpower2_Psize. lia. }
  unfold Qlt. simpl. nia.
Qed.

(** [floor_log10 q] is the integer part of the decimal logarithm. *)
Lemma floor_log10_spec q :
  1 ≤ q → pow10 (floor_log10 q) ≤ q ∧ q < pow10 (S (floor_log10 q)).
Proof.
  intros H1. apply ilog10_spec; [exact H1 | apply log10_fuel_enough, H1].
Qed.

Lemma floor_cases (yq : Q) (k : Z) :
  (inject_Z k - (1 # 2) < yq)%Q → (yq < inject_Z k + (1 # 2))%Q →
  Qfloor yq = k ∨ Qfloor yq = (k - 1)%Z.
Proof.
  intros Hlo Hhi.
  pose proof (Qfloor_le yq) as Hfl.
  pose proof (Qlt_floor yq) as Hfu.
  assert (H1 : (inject_Z (Qfloor yq) < inject_Z (k + 1))%Q).
  { rewrite inject_Z_plus. change (inject_Z 1) with 1%Q.
    generalize dependent (inject_Z (Qfloor yq)).
    generalize dependent (inject_Z k). intros. lra. }
  assert (H2 : (inject_Z (k - 1) < inject_Z (Qfloor yq + 1))%Q).
  { replace (k - 1)%Z with (k + -1)%Z by lia. rewrite inject_Z_plus.
    change (inject_Z (-1)) with (-1)%Q.
    generalize dependent (inject_Z (Qfloor yq + 1)).
    generalize dependent (inject_Z k). intros. lra. }
  rewrite <- Zlt_Qlt in H1, H2. lia.
Qed.

(** A number less than one half away from an integer rounds to it. *)
Lemma round_half_even_near (y : Qc) (k : Z) :
  ofZ k - 1 / ofZ 2 < y → y < ofZ k + 1 / ofZ 2 → round_half_even y = k.
Proof.
  intros Hlo Hhi. unfold round_half_even.
  unfold Qclt in Hlo, Hhi.
  rewrite this_minus, this_ofZ, this_half in Hlo.
  rewrite this_plus, this_ofZ, this_half in Hhi.
  destruct (floor_cases _ _ Hlo Hhi) as [Hf|Hf]; rewrite Hf.
  - assert (Hr : y - ofZ k < 1 / ofZ 2).
    { unfold Qclt. rewrite this_minus, this_ofZ, this_half.
      generalize dependent (inject_Z k). intros. lra. }
    apply Qc_ltb_spec in Hr. rewrite Hr. reflexivity.
  - assert (Hr : 1 / ofZ 2 < y - ofZ (k - 1)).
    { unfold Qclt. rewrite this_minus, this_ofZ, this_half.
      replace (k - 1)%Z with (k + -1)%Z by lia. rewrite inject_Z_plus.
      change (inject_Z (-1)) with (-1)%Q.
      generalize dependent (inject_Z k). intros. lra. }
    assert (Hn : ¬ y - ofZ (k - 1) < 1 / ofZ 2).
    { intros Hc. eapply Qclt_not_le; [exact Hr|]. apply Qclt_le_weak, Hc. }
    apply Qc_ltb_false in Hn. apply Qc_ltb_spec in Hr.
    rewrite Hn, Hr. lia.
Qed.

Lemma round_half_even_ofZ k : round_half_even (ofZ k) = k.
Proof.
  apply round_half_even_near; unfold Qclt.
  - rewrite this_minus, this_ofZ, this_half.
    generalize dependent (inject_Z k). intros. lra.
  - rewrite this_plus, this_ofZ, this_half.
    generalize dependent (inject_Z k). intros. lra.
Qed.

Lemma pow10_nonzero n : pow10 n ≠ 0.
Proof.
  unfold pow10. induction n as [|n IH]; simpl; [discriminate|].
  intros Hz. apply Qcmult_integral in Hz as [Hz|Hz]; [discriminate|].
  exact (IH Hz).
Qed.

Lemma py_round_scaled x ndigits :
  py_round x ndigits = unscaled (round_half_even (scaled x ndigits)) ndigits.
Proof. destruct ndigits; reflexivity. Qed.

Lemma scaled_unscaled k ndigits : scaled (unscaled k ndigits) ndigits = ofZ k.
Proof.
  destruct ndigits as [|p|p]; unfold scaled, unscaled;
    field; apply pow10_nonzero.
Qed.

Lemma py_round_near x ndigits k :
  within_half ndigits x k → py_round x ndigits = unscaled k ndigits.
Proof.
  intros [Hlo Hhi]. rewrite py_round_scaled.
  rewrite (round_half_even_near _ k Hlo Hhi). reflexivity.
Qed.

Lemma py_round_idempotent x ndigits :
  py_round (py_round x ndigits) ndigits = py_round x ndigits.
Proof.
  rewrite (py_round_scaled x). rewrite py_round_scaled.
  rewrite scaled_unscaled, round_half_even_ofZ. reflexivity.
Qed.

Lemma round_point_unfold self prec point :
  precision self = Ok prec →
  _round_point self point
  = Ok (py_round (real point) prec, py_round (imag point) prec).
Proof. intros Hp. unfold _round_point. rewrite Hp. reflexivity. Qed.

(** C4, as the code has it.  The node of a point is its rounding to the
    grid of step [10^-p], [p = int(-log10 ε)].  Two points whose
    coordinates are each less than half a step away from the same grid
    point get that grid point as their common key; rounding is idempotent;
    and the built graph has exactly one entry per key, which holds the
    rounded endpoints of every segment.  (Being closer than [ε] is not
    enough: see the counterexample below.) *)
Theorem round_point_collapse (self : GeometryProcessor) (prec : Z) :
  precision self = Ok prec →
  (∀ (p q : complex) (kx ky : Z),
     within_half prec (real p) kx → within_half prec (imag p) ky →
     within_half prec (real q) kx → within_half prec (imag q) ky →
     _round_point self p = Ok (unscaled kx prec, unscaled ky prec)
     ∧ _round_point self q = _round_point self p)
  ∧ (∀ p key, _round_point self p = Ok key → _round_point self key = Ok key)
  ∧ (∀ segs g,
       _build_segment_graph self segs = Ok g →
       NoDup (dict_keys g)
       ∧ ∀ start end_ p,
           (start, end_) ∈ segs → p = start ∨ p = end_ →
           ∃ key, _round_point self p = Ok key ∧ key ∈ dict_keys g).
Proof.
  intros Hprec. split; [|split].
  - intros p q kx ky Hpx Hpy Hqx Hqy.
    rewrite !(round_point_unfold self prec) by exact Hprec.
    rewrite (py_round_near _ _ _ Hpx), (py_round_near _ _ _ Hpy),
      (py_round_near _ _ _ Hqx), (py_round_near _ _ _ Hqy).
    split; reflexivity.
  - intros p key.
    rewrite !(round_point_unfold self prec) by exact Hprec.
    intros [= <-]. unfold real, imag. simpl.
    rewrite !py_round_idempotent. reflexivity.
  - intros segs g Hbuild.
    apply build_segment_graph_spec in Hbuild as (_ & Hnd & Hends).
    split; [exact Hnd | exact Hends].
Qed.

(** Two points near the origin, tolerance 0.1: both go to the node (0, 0). *)
Lemma round_point_collapse_witness :
  let self := __init__ (ofZ 1 / ofZ 10) in
  let p : complex := (ofZ 1 / ofZ 32, ofZ 0) in
  let q : complex := (ofZ 1 / ofZ 64, ofZ 0) in
  precision self = Ok 1%Z
  ∧ _round_point self p = Ok (unscaled 0 1, unscaled 0 1)
  ∧ _round_point self q = _round_point self p.
Proof.
  intros self p q.
  assert (Hprec : precision self = Ok 1%Z) by reflexivity.
  split; [exact Hprec|].
  destruct (round_point_collapse self 1%Z Hprec) as (Hnear & _).
  apply (Hnear p q 0%Z 0%Z); split; vm_compute; reflexivity.
Defined.

(** C4 fails as stated.  Tolerance 0.1, the points (1/32, 0) and (1/16, 0):
    their distance is 1/32, less than [ε], but 1/32 rounds to 0.0 and 1/16
    to 0.1, and the graph built from two segments starting at them has a
    node for each. *)
Lemma close_points_two_nodes_counterexample :
  let self := __init__ (ofZ 1 / ofZ 10) in
  let p : complex := (ofZ 1 / ofZ 32, ofZ 0) in
  let q : complex := (ofZ 1 / ofZ 16, ofZ 0) in
  closer_than (tolerance self) p q
  ∧ _round_point self p = Ok (ofZ 0, ofZ 0)
  ∧ _round_point self q = Ok (ofZ 1 / ofZ 10, ofZ 0)
  ∧ _round_point self p ≠ _round_point self q
  ∧ _build_segment_graph self [(p, pt 5 0); (q, pt 5 5)]
    = Ok [((ofZ 0, ofZ 0), [pt 5 0]);
          (pt 5 0, [(ofZ 0, ofZ 0)]);
          ((ofZ 1 / ofZ 10, ofZ 0), [pt 5 5]);
          (pt 5 5, [(ofZ 1 / ofZ 10, ofZ 0)])].
Proof.
  intros self p q. split; [|split; [|split; [|split]]].
  - split; vm_compute; reflexivity.
  - apply (bool_decide_unpack _). vm_compute. exact I.
  - apply (bool_decide_unpack _). vm_compute. exact I.
  - apply (bool_decide_unpack _). vm_compute. exact I.
  - apply (bool_decide_unpack _). vm_compute. exact I.
Qed.


(** * Further properties *)

(** ** Segment intersector: the whole scan *)

Lemma line_intersection_ok self seg1 seg2 :
  0 < tolerance self → ∃ r, _line_intersection self seg1 seg2 = Ok r.
Proof.
  intros Hpos. unfold _line_intersection.
  destruct (Qc_ltb _ _) eqn:E; [eauto|].
  apply Qc_ltb_false in E.
  rewrite !py_div_ok by (eapply denominator_nonzero; eassumption).
  simpl. destruct (_ && _); eauto.
Qed.

Lemma line_intersection_raise self seg1 seg2 e :
  _line_intersection self seg1 seg2 = Raise e →
  e = ZeroDivisionError ∧ tolerance self ≤ 0 ∧ denominator seg1 seg2 = 0.
Proof.
  unfold _line_intersection.
  destruct (Qc_ltb _ _) eqn:E; [discriminate|].
  apply Qc_ltb_false in E.
  destruct (decide (denominator seg1 seg2 = 0)) as [Hz|Hnz].
  - rewrite Hz, py_div_zero. simpl. intros [= <-].
    split; [reflexivity|]. split; [|reflexivity].
    apply Qcnot_lt_le. intros Hpos. apply E. rewrite Hz.
    rewrite Qcabs_pos by apply Qcle_refl. exact Hpos.
  - rewrite !py_div_ok by exact Hnz. simpl.
    destruct (_ && _); discriminate.
Qed.

Lemma find_intersections_from_ok self seg1 rest :
  ∀ acc acc',
    find_intersections_from self seg1 rest acc = Ok acc' →
    (NoDup acc → NoDup acc')
    ∧ ∀ p, p ∈ acc' ↔
           p ∈ acc
           ∨ ∃ seg2, seg2 ∈ rest
                     ∧ _line_intersection self seg1 seg2 = Ok (Some p).
Proof.
  induction rest as [|seg2 rest IH]; intros acc acc'; simpl.
  - intros [= <-]. split; [auto|]. intros p. split; [auto|].
    intros [Hp|(s & Hs & _)]; [exact Hp|].
    apply elem_of_nil in Hs. contradiction.
  - destruct (_line_intersection self seg1 seg2) as [r|] eqn:Hli; simpl;
      [|discriminate].
    intros Hrest. apply IH in Hrest as [Hnd Hmem]. split.
    + intros Hacc. apply Hnd. destruct r as [q|]; [|exact Hacc].
      unfold set_add. destruct (decide (q ∈ acc)); [exact Hacc|].
      apply NoDup_app. split; [exact Hacc|]. split.
      * intros x Hx Hq. apply list_elem_of_singleton in Hq as ->.
        contradiction.
      * apply NoDup_singleton.
    + intros p. rewrite Hmem. split.
      * intros [Hp|(s & Hs & Hp)].
        -- destruct r as [q|]; [|auto].
           apply elem_of_set_add in Hp as [->|Hp]; [|auto].
           right. exists seg2. split; [apply list_elem_of_here | exact Hli].
        -- right. exists s. split; [apply list_elem_of_further, Hs|exact Hp].
      * intros [Hp|(s & Hs & Hp)].
        -- left. destruct r as [q|]; [|exact Hp].
           apply elem_of_set_add. auto.
        -- apply elem_of_cons in Hs as [->|Hs].
           ++ left. rewrite Hli in Hp. injection Hp as ->.
              apply elem_of_set_add. auto.
           ++ right. exists s. auto.
Qed.

Lemma scanned_pair_cons seg segs seg1 seg2 :
  scanned_pair (seg :: segs) seg1 seg2 ↔
  (seg1 = seg ∧ seg2 ∈ segs) ∨ scanned_pair segs seg1 seg2.
Proof.
  unfold scanned_pair. split.
  - intros (i & j & Hij & Hi & Hj).
    destruct j as [|j]; [lia|]. simpl in Hj.
    destruct i as [|i]; simpl in Hi.
    + injection Hi as <-. left. split; [reflexivity|].
      eapply list_elem_of_lookup_2, Hj.
    + right. exists i, j. split; [lia | auto].
  - intros [[-> Hin]|(i & j & Hij & Hi & Hj)].
    + apply list_elem_of_lookup in Hin as [j Hj].
      exists 0%nat, (S j). split; [lia | auto].
    + exists (S i), (S j). split; [lia | auto].
Qed.

Lemma find_intersections_loop_ok self segs :
  ∀ acc acc',
    find_intersections_loop self segs acc = Ok acc' →
    (NoDup acc → NoDup acc')
    ∧ ∀ p, p ∈ acc' ↔
           p ∈ acc
           ∨ ∃ seg1 seg2, scanned_pair segs seg1 seg2
                          ∧ _line_intersection self seg1 seg2 = Ok (Some p).
Proof.
  induction segs as [|seg segs IH]; intros acc acc'; simpl.
  - intros [= <-]. split; [auto|]. intros p. split; [auto|].
    intros [Hp|(s1 & s2 & (i & j & _ & Hi & _) & _)]; [exact Hp|].
    rewrite lookup_nil in Hi. discriminate.
  - destruct (find_intersections_from self seg segs acc) as [acc1|] eqn:Hfrom;
      simpl; [|discriminate].
    intros Hloop.
    apply find_intersections_from_ok in Hfrom as [Hnd1 Hmem1].
    apply IH in Hloop as [Hnd Hmem].
    split; [auto|].
    intros p. rewrite Hmem, Hmem1. split.
    + intros [[Hp|(s2 & Hs2 & Hp)]|(s1 & s2 & Hpair & Hp)].
      * auto.
      * right. exists seg, s2. split; [|exact Hp].
        apply scanned_pair_cons. auto.
      * right. exists s1, s2. split; [|exact Hp].
        apply scanned_pair_cons. auto.
    + intros [Hp|(s1 & s2 & Hpair & Hp)]; [auto|].
      apply scanned_pair_cons in Hpair as [[-> Hin]|Hpair].
      * left. right. exists s2. auto.
      * right. exists s1, s2. auto.
Qed.

Lemma find_intersections_spec (self self' : GeometryProcessor) :
  _find_intersections self = Ok self' →
  tolerance self' = tolerance self
  ∧ segments self' = segments self
  ∧ (NoDup (intersections self) → NoDup (intersections self'))
  ∧ ∀ p, p ∈ intersections self' ↔
         p ∈ intersections self
         ∨ ∃ seg1 seg2,
             scanned_pair (segments self) seg1 seg2
             ∧ _line_intersection self seg1 seg2 = Ok (Some p).
Proof.
  unfold _find_intersections.
  destruct (find_intersections_loop _ _ _) as [s|] eqn:Hloop; simpl;
    [|discriminate].
  intros [= <-]. simpl.
  apply find_intersections_loop_ok in Hloop as [Hnd Hmem].
  auto.
Qed.

(** X1.  A scan that ends adds to the intersection set exactly the points
    [_line_intersection] reports for the pairs of segments taken in list
    order, each stored once; it changes neither the tolerance nor the
    segments. *)
Theorem find_intersections_collects (self self' : GeometryProcessor) :
  _find_intersections self = Ok self' →
  tolerance self' = tolerance self
  ∧ segments self' = segments self
  ∧ (NoDup (intersections self) → NoDup (intersections self'))
  ∧ ∀ p, p ∈ intersections self' ↔
         p ∈ intersections self
         ∨ ∃ seg1 seg2,
             scanned_pair (segments self) seg1 seg2
             ∧ _line_intersection self seg1 seg2 = Ok (Some p).
Proof. exact (find_intersections_spec self self'). Qed.

(** Two crossing diagonals and a far-away segment. *)
Lemma find_intersections_collects_witness :
  let self :=
    mkGeometryProcessor (ofZ 1 / ofZ 10) []
      [(pt 0 0, pt 2 2); (pt 0 2, pt 2 0); (pt 5 5, pt 6 5)] in
  ∃ self', _find_intersections self = Ok self'
           ∧ (pt 1 1 ∈ intersections self').
Proof.
  intros self.
  destruct (_find_intersections self) as [self'|] eqn:Hrun;
    [|vm_compute in Hrun; discriminate].
  exists self'. split; [reflexivity|].
  destruct (find_intersections_collects self self' Hrun) as (_ & _ & _ & Hmem).
  apply Hmem. right. exists (pt 0 0, pt 2 2), (pt 0 2, pt 2 0). split.
  - exists 0%nat, 1%nat. split; [lia | split; reflexivity].
  - apply (bool_decide_unpack _). vm_compute. exact I.
Defined.

Lemma find_intersections_from_raise self seg1 rest :
  ∀ acc e,
    find_intersections_from self seg1 rest acc = Raise e →
    ∃ seg2, seg2 ∈ rest ∧ _line_intersection self seg1 seg2 = Raise e.
Proof.
  induction rest as [|seg2 rest IH]; intros acc e; simpl; [discriminate|].
  destruct (_line_intersection self seg1 seg2) as [r|e'] eqn:Hli; simpl.
  - intros Hr. apply IH in Hr as (s & Hs & Hr).
    exists s. split; [apply list_elem_of_further, Hs | exact Hr].
  - intros [= <-]. exists seg2. split; [apply list_elem_of_here | exact Hli].
Qed.

Lemma find_intersections_from_all self seg1 rest :
  ∀ acc acc',
    find_intersections_from self seg1 rest acc = Ok acc' →
    ∀ seg2, seg2 ∈ rest → ∃ r, _line_intersection self seg1 seg2 = Ok r.
Proof.
  induction rest as [|seg2 rest IH]; intros acc acc'; simpl.
  - intros _ s Hs. apply elem_of_nil in Hs. contradiction.
  - destruct (_line_intersection self seg1 seg2) as [r|] eqn:Hli; simpl;
      [|discriminate].
    intros Hrest s Hs. apply elem_of_cons in Hs as [->|Hs]; [eauto|].
    eapply IH; eassumption.
Qed.

Lemma find_intersections_loop_raise self segs :
  ∀ acc e,
    find_intersections_loop self segs acc = Raise e →
    ∃ seg1 seg2, scanned_pair segs seg1 seg2
                 ∧ _line_intersection self seg1 seg2 = Raise e.
Proof.
  induction segs as [|seg segs IH]; intros acc e; simpl; [discriminate|].
  destruct (find_intersections_from self seg segs acc) as [acc1|e'] eqn:Hfrom;
    simpl.
  - intros Hr. apply IH in Hr as (s1 & s2 & Hpair & Hr).
    exists s1, s2. split; [apply scanned_pair_cons; auto | exact Hr].
  - intros [= <-]. apply find_intersections_from_raise in Hfrom as (s2 & Hs & Hr).
    exists seg, s2. split; [apply scanned_pair_cons; auto | exact Hr].
Qed.

Lemma find_intersections_loop_all self segs :
  ∀ acc acc',
    find_intersections_loop self segs acc = Ok acc' →
    ∀ seg1 seg2, scanned_pair segs seg1 seg2 →
                 ∃ r, _line_intersection self seg1 seg2 = Ok r.
Proof.
  induction segs as [|seg segs IH]; intros acc acc'; simpl.
  - intros _ s1 s2 (i & j & _ & Hi & _). rewrite lookup_nil in Hi.
    discriminate.
  - destruct (find_intersections_from self seg segs acc) as [acc1|] eqn:Hfrom;
      simpl; [|discriminate].
    intros Hloop s1 s2 Hpair.
    apply scanned_pair_cons in Hpair as [[-> Hin]|Hpair].
    + eapply find_intersections_from_all; eassumption.
    + eapply IH; eassumption.
Qed.

Lemma find_intersections_raises (self : GeometryProcessor) :
  (∀ e, _find_intersections self = Raise e →
        e = ZeroDivisionError
        ∧ tolerance self ≤ 0
        ∧ ∃ seg1 seg2, scanned_pair (segments self) seg1 seg2
                       ∧ denominator seg1 seg2 = 0)
  ∧ (tolerance self ≤ 0 →
     ∀ seg1 seg2,
       scanned_pair (segments self) seg1 seg2 →
       denominator seg1 seg2 = 0 →
       _find_intersections self = Raise ZeroDivisionError)
  ∧ (0 < tolerance self → ∃ self', _find_intersections self = Ok self').
Proof.
  assert (Hraise : ∀ e, _find_intersections self = Raise e →
            e = ZeroDivisionError ∧ tolerance self ≤ 0
            ∧ ∃ seg1 seg2, scanned_pair (segments self) seg1 seg2
                           ∧ denominator seg1 seg2 = 0).
  { intros e. unfold _find_intersections.
    destruct (find_intersections_loop _ _ _) as [s|e'] eqn:Hloop; simpl;
      [discriminate|].
    intros [= <-].
    apply find_intersections_loop_raise in Hloop as (s1 & s2 & Hpair & Hr).
    apply line_intersection_raise in Hr as (-> & Htol & Hz).
    split; [reflexivity|]. split; [exact Htol|]. eauto. }
  split; [exact Hraise|]. split.
  - intros Htol seg1 seg2 Hpair Hz.
    destruct (_find_intersections self) as [self'|e] eqn:Hrun.
    + exfalso. unfold _find_intersections in Hrun.
      destruct (find_intersections_loop _ _ _) as [s|] eqn:Hloop; simpl in Hrun;
        [|discriminate].
      destruct (find_intersections_loop_all _ _ _ _ Hloop _ _ Hpair) as [r Hr].
      unfold _line_intersection in Hr. rewrite Hz in Hr.
      assert (Hn : Qc_ltb (Qcabs 0) (tolerance self) = false).
      { apply Qc_ltb_false. rewrite Qcabs_pos by apply Qcle_refl.
        apply Qcle_not_lt, Htol. }
      rewrite Hn, py_div_zero in Hr. discriminate.
    + destruct (Hraise e eq_refl) as (-> & _). reflexivity.
  - intros Hpos.
    destruct (_find_intersections self) as [self'|e] eqn:Hrun; [eauto|].
    destruct (Hraise e eq_refl) as (_ & Htol & _).
    exfalso. eapply Qclt_not_le; eassumption.
Qed.

(** X2.  The scan raises exactly when the tolerance is not positive and two
    of the segments it compares have a zero denominator (parallel or
    degenerate segments); the error is then the division by zero.  With a
    positive tolerance it always ends. *)
Theorem find_intersections_errors (self : GeometryProcessor) :
  (∀ e, _find_intersections self = Raise e →
        e = ZeroDivisionError
        ∧ tolerance self ≤ 0
        ∧ ∃ seg1 seg2, scanned_pair (segments self) seg1 seg2
                       ∧ denominator seg1 seg2 = 0)
  ∧ (tolerance self ≤ 0 →
     ∀ seg1 seg2,
       scanned_pair (segments self) seg1 seg2 →
       denominator seg1 seg2 = 0 →
       _find_intersections self = Raise ZeroDivisionError)
  ∧ (0 < tolerance self → ∃ self', _find_intersections self = Ok self').
Proof. exact (find_intersections_raises self). Qed.

(** Tolerance zero and two parallel segments. *)
Lemma find_intersections_errors_witness :
  let self :=
    mkGeometryProcessor 0 [] [(pt 0 0, pt 1 0); (pt 0 1, pt 1 1)] in
  _find_intersections self = Raise ZeroDivisionError.
Proof.
  intros self.
  destruct (find_intersections_errors self) as (_ & Hraise & _).
  apply (Hraise ltac:(vm_compute; discriminate)
           (pt 0 0, pt 1 0) (pt 0 1, pt 1 1)).
  - exists 0%nat, 1%nat. split; [lia | split; reflexivity].
  - apply (bool_decide_unpack _). vm_compute. exact I.
Defined.

(** ** Segment splitter: points on a segment *)

Lemma Qc_leb_false x y : Qc_leb x y = false ↔ ¬ x ≤ y.
Proof. unfold Qc_leb. apply bool_decide_eq_false. Qed.

Lemma Qc_min_le_l a b : Qc_min a b ≤ a.
Proof.
  unfold Qc_min. destruct (Qc_leb a b) eqn:E; [apply Qcle_refl|].
  apply Qc_leb_false in E. apply Qclt_le_weak, Qcnot_le_lt, E.
Qed.

Lemma Qc_min_le_r a b : Qc_min a b ≤ b.
Proof.
  unfold Qc_min. destruct (Qc_leb a b) eqn:E; [|apply Qcle_refl].
  apply Qc_leb_spec, E.
Qed.

Lemma Qc_max_ge_l a b : a ≤ Qc_max a b.
Proof.
  unfold Qc_max. destruct (Qc_leb a b) eqn:E; [|apply Qcle_refl].
  apply Qc_leb_spec, E.
Qed.

Lemma Qc_max_ge_r a b : b ≤ Qc_max a b.
Proof.
  unfold Qc_max. destruct (Qc_leb a b) eqn:E; [apply Qcle_refl|].
  apply Qc_leb_false in E. apply Qclt_le_weak, Qcnot_le_lt, E.
Qed.

(** A point of parameter [t] in [[0,1]] lies between the two ends. *)
Lemma between_ends (t a b : Qc) :
  0 ≤ t → t ≤ 1 →
  Qc_min a b ≤ a + t * (b - a) ∧ a + t * (b - a) ≤ Qc_max a b.
Proof.
  intros H0 H1.
  assert (Hcases : (a ≤ a + t * (b - a) ∧ a + t * (b - a) ≤ b)
                   ∨ (b ≤ a + t * (b - a) ∧ a + t * (b - a) ≤ a)).
  { unfold Qcle in *.
    rewrite !this_plus, !this_mult, !this_minus.
    change (this 0) with 0%Q in H0. change (this 1) with 1%Q in H1.
    generalize dependent (this t). generalize (this a) (this b).
    intros qa qb qt H0 H1.
    destruct (Qlt_le_dec qb qa); [right | left]; split; nra. }
  destruct Hcases as [[Hl Hu]|[Hl Hu]]; split.
  - eapply Qcle_trans; [apply Qc_min_le_l | exact Hl].
  - eapply Qcle_trans; [exact Hu | apply Qc_max_ge_r].
  - eapply Qcle_trans; [apply Qc_min_le_r | exact Hl].
  - eapply Qcle_trans; [exact Hu | apply Qc_max_ge_l].
Qed.

Lemma slack_le (tol lo x hi : Qc) :
  0 ≤ tol → lo ≤ x → x ≤ hi → lo - tol ≤ x ∧ x ≤ hi + tol.
Proof.
  intros Ht Hl Hh. unfold Qcle in *.
  rewrite this_minus, this_plus. change (this 0) with 0%Q in Ht.
  split; lra.
Qed.

Lemma point_at_on_segment self seg t :
  0 ≤ tolerance self → 0 ≤ t → t ≤ 1 →
  _point_on_segment self (point_at seg t) seg = true.
Proof.
  intros Htol H0 H1. destruct seg as [[x1 y1] [x2 y2]].
  unfold _point_on_segment, point_at, real, imag. simpl.
  replace ((y1 + t * (y2 - y1) - y1) * (x2 - x1)
           - (x1 + t * (x2 - x1) - x1) * (y2 - y1)) with 0 by ring.
  rewrite Qcabs_pos by apply Qcle_refl.
  assert (Hn : Qc_ltb (tolerance self) 0 = false)
    by (apply Qc_ltb_false, Qcle_not_lt, Htol).
  rewrite Hn.
  destruct (between_ends t x1 x2 H0 H1) as [Hxl Hxu].
  destruct (between_ends t y1 y2 H0 H1) as [Hyl Hyu].
  destruct (slack_le _ _ _ _ Htol Hxl Hxu) as [Hx1 Hx2].
  destruct (slack_le _ _ _ _ Htol Hyl Hyu) as [Hy1 Hy2].
  apply Qc_leb_spec in Hx1, Hx2, Hy1, Hy2.
  rewrite Hx1, Hx2, Hy1, Hy2. reflexivity.
Qed.

Lemma point_at_0 seg : point_at seg 0 = fst seg.
Proof.
  destruct seg as [[x1 y1] [x2 y2]]. unfold point_at, real, imag. simpl.
  f_equal; ring.
Qed.

Lemma point_at_1 seg : point_at seg 1 = snd seg.
Proof.
  destruct seg as [[x1 y1] [x2 y2]]. unfold point_at, real, imag. simpl.
  f_equal; ring.
Qed.

(** X3.  With a tolerance that is not negative, both ends of a segment and
    every point [start + t (end - start)], [0 ≤ t ≤ 1], pass the
    point-on-segment test; with a negative tolerance no point passes it on
    any segment. *)
Theorem point_on_segment_ends (self : GeometryProcessor) :
  (0 ≤ tolerance self →
   ∀ start end_ t,
     _point_on_segment self start (start, end_) = true
     ∧ _point_on_segment self end_ (start, end_) = true
     ∧ (0 ≤ t ≤ 1 →
        _point_on_segment self (point_at (start, end_) t) (start, end_)
        = true))
  ∧ (tolerance self < 0 →
     ∀ point seg, _point_on_segment self point seg = false).
Proof.
  split.
  - intros Htol start end_ t. split; [|split].
    + rewrite <- (point_at_0 (start, end_)) at 1.
      apply point_at_on_segment; [exact Htol | apply Qcle_refl | discriminate].
    + rewrite <- (point_at_1 (start, end_)) at 1.
      apply point_at_on_segment; [exact Htol | discriminate | apply Qcle_refl].
    + intros [H0 H1]. apply point_at_on_segment; assumption.
  - intros Htol point [start end_]. unfold _point_on_segment.
    assert (Hlt : Qc_ltb (tolerance self) (Qcabs
              ((imag point - imag start) * (real end_ - real start)
               - (real point - real start) * (imag end_ - imag start))) = true).
    { apply Qc_ltb_spec. eapply Qclt_le_trans; [exact Htol|].
      apply Qcabs_nonneg. }
    rewrite Hlt. reflexivity.
Qed.

Lemma point_on_segment_ends_witness :
  let self := __init__ (ofZ 1 / ofZ 10) in
  _point_on_segment self (pt 0 0) (pt 0 0, pt 3 4) = true
  ∧ _point_on_segment self (pt 3 4) (pt 0 0, pt 3 4) = true
  ∧ _point_on_segment (__init__ (- ofZ 1)) (pt 0 0) (pt 0 0, pt 3 4) = false.
Proof.
  intros self.
  destruct (point_on_segment_ends self) as [Hpos _].
  destruct (Hpos ltac:(vm_compute; discriminate) (pt 0 0) (pt 3 4) 0)
    as (H1 & H2 & _).
  destruct (point_on_segment_ends (__init__ (- ofZ 1))) as [_ Hneg].
  split; [exact H1|]. split; [exact H2|].
  apply Hneg. vm_compute. reflexivity.
Defined.



(** ** Segment splitter: sorting along a segment *)

Lemma set_of_list_spec {A} `{EqDecision A} (l : list A) :
  NoDup (set_of_list l) ∧ ∀ x, x ∈ set_of_list l ↔ x ∈ l.
Proof.
  unfold set_of_list.
  assert (Hgen : ∀ (l acc : list A),
            NoDup acc →
            NoDup (fold_left (fun s x => set_add x s) l acc)
            ∧ ∀ x, x ∈ fold_left (fun s x => set_add x s) l acc
                   ↔ x ∈ acc ∨ x ∈ l).
  { clear l. induction l as [|a l IH]; intros acc Hacc; simpl.
    - split; [exact Hacc|]. intros x. rewrite elem_of_nil. tauto.
    - destruct (IH (set_add a acc)) as [Hnd Hmem].
      + unfold set_add. destruct (decide (a ∈ acc)); [exact Hacc|].
        apply NoDup_app. split; [exact Hacc|]. split.
        * intros x Hx Ha. apply list_elem_of_singleton in Ha as ->.
          contradiction.
        * apply NoDup_singleton.
      + split; [exact Hnd|]. intros x.
        rewrite Hmem, elem_of_set_add, elem_of_cons. tauto. }
  destruct (Hgen l [] (NoDup_nil_2)) as [Hnd Hmem].
  split; [exact Hnd|]. intros x. rewrite Hmem, elem_of_nil. tauto.
Qed.

Lemma insert_by_perm {A} (key : A → Qc) x l :
  x :: l ≡ₚ insert_by key x l.
Proof.
  induction l as [|y l IH]; simpl; [reflexivity|].
  destruct (Qc_leb (key x) (key y)); [reflexivity|].
  rewrite <- IH. apply Permutation_swap.
Qed.

Lemma sorted_by_perm {A} (key : A → Qc) l : l ≡ₚ sorted_by key l.
Proof.
  unfold sorted_by. induction l as [|x l IH]; simpl; [reflexivity|].
  rewrite <- insert_by_perm. rewrite <- IH. reflexivity.
Qed.

Lemma insert_by_sorted {A} (key : A → Qc) x l :
  StronglySorted (fun a b => key a ≤ key b) l →
  StronglySorted (fun a b => key a ≤ key b) (insert_by key x l).
Proof.
  induction l as [|y l IH]; intros Hs; simpl.
  - apply SSorted_cons; [apply SSorted_nil | apply Forall_nil_2].
  - apply StronglySorted_inv in Hs as [Hs Hy].
    destruct (Qc_leb (key x) (key y)) eqn:E.
    + apply Qc_leb_spec in E.
      apply SSorted_cons; [apply SSorted_cons; assumption|].
      apply Forall_cons. split; [exact E|].
      eapply Forall_impl; [exact Hy|]. simpl. intros z Hz.
      eapply Qcle_trans; eassumption.
    + apply Qc_leb_false in E. apply Qcnot_le_lt, Qclt_le_weak in E.
      apply SSorted_cons; [apply IH, Hs|].
      rewrite <- insert_by_perm. apply Forall_cons. auto.
Qed.

Lemma sorted_by_sorted {A} (key : A → Qc) l :
  StronglySorted (fun a b => key a ≤ key b) (sorted_by key l).
Proof.
  unfold sorted_by. induction l as [|x l IH]; simpl.
  - apply SSorted_nil.
  - apply insert_by_sorted, IH.
Qed.

Lemma sort_points_spec (points : list complex) (start end_ : complex) :
  let sorted := _sort_points_along_segment points start end_ in
  NoDup sorted
  ∧ (∀ p, p ∈ sorted ↔ p ∈ points)
  ∧ StronglySorted (nearer start) sorted.
Proof.
  intros sorted. unfold sorted, _sort_points_along_segment.
  destruct (set_of_list_spec points) as [Hnd Hmem].
  split; [|split].
  - rewrite <- sorted_by_perm. exact Hnd.
  - intros p. rewrite <- sorted_by_perm. apply Hmem.
  - apply (sorted_by_sorted (fun point => norm2 (csub point start))).
Qed.

(** X5.  [_sort_points_along_segment] returns the distinct points of its
    input, each once, in order of non-decreasing distance from [start]. *)
Theorem sort_points_sorted (points : list complex) (start end_ : complex) :
  let sorted := _sort_points_along_segment points start end_ in
  NoDup sorted
  ∧ (∀ p, p ∈ sorted ↔ p ∈ points)
  ∧ StronglySorted (nearer start) sorted.
Proof. exact (sort_points_spec points start end_). Qed.

(** ** Segment splitter: the sub-segments *)

Lemma consecutive_pairs_split {A} (l : list A) a b :
  (a, b) ∈ consecutive_pairs l → ∃ l1 l2, l = l1 ++ a :: b :: l2.
Proof.
  induction l as [|x [|y l] IH]; simpl.
  - intros Hin. apply elem_of_nil in Hin. contradiction.
  - intros Hin. apply elem_of_nil in Hin. contradiction.
  - intros Hin. apply elem_of_cons in Hin as [[= -> ->]|Hin].
    + exists [], l. reflexivity.
    + destruct (IH Hin) as (l1 & l2 & Hl). exists (x :: l1), l2.
      simpl. rewrite Hl. reflexivity.
Qed.

Lemma StronglySorted_suffix {A} (R : A → A → Prop) l1 l2 :
  StronglySorted R (l1 ++ l2) → StronglySorted R l2.
Proof.
  induction l1 as [|x l1 IH]; simpl; [exact id|].
  intros Hs. apply StronglySorted_inv in Hs as [Hs _]. apply IH, Hs.
Qed.

Lemma norm2_nonneg z : 0 ≤ norm2 z.
Proof.
  unfold norm2, Qcle. rewrite this_plus, !this_mult.
  change (this 0) with 0%Q.
  generalize (this (real z)) (this (imag z)). intros x y. nra.
Qed.

Lemma csub_diag z : csub z z = (0, 0).
Proof. unfold csub. f_equal; ring. Qed.

Lemma split_segment_spec (self : GeometryProcessor) (seg : segment)
    (p1 p2 : complex) :
  (p1, p2) ∈ split_segment self seg →
  cabs_gtb (csub p2 p1) (tolerance self) = true
  ∧ p1 ≠ p2
  ∧ nearer (fst seg) p1 p2
  ∧ ∀ p, p = p1 ∨ p = p2 →
         p = fst seg ∨ p = snd seg
         ∨ (p ∈ intersections self ∧ _point_on_segment self p seg = true).
Proof.
  destruct seg as [start end_]. unfold split_segment.
  intros Hin. apply list_elem_of_filter in Hin as [Hlen Hin].
  apply consecutive_pairs_split in Hin as (l1 & l2 & Hl).
  destruct (sort_points_spec
              (filter (fun i => _point_on_segment self i (start, end_) = true)
                      (intersections self) ++ [start; end_]) start end_)
    as (Hnd & Hmem & Hsorted).
  rewrite Hl in Hnd, Hmem, Hsorted.
  split; [exact Hlen|]. split; [|split].
  - intros ->. apply NoDup_app in Hnd as (_ & _ & Hnd).
    apply NoDup_cons in Hnd as [Hnd _]. apply Hnd, list_elem_of_here.
  - apply StronglySorted_suffix in Hsorted.
    apply StronglySorted_inv in Hsorted as [_ Hall].
    apply Forall_cons in Hall as [Hall _]. exact Hall.
  - intros p Hp.
    assert (Hpin : p ∈ l1 ++ p1 :: p2 :: l2).
    { rewrite elem_of_app, !elem_of_cons. tauto. }
    apply Hmem in Hpin. apply elem_of_app in Hpin as [Hpin|Hpin].
    + apply list_elem_of_filter in Hpin. tauto.
    + rewrite !elem_of_cons, elem_of_nil in Hpin. simpl. tauto.
Qed.

(** X6.  Every sub-segment the splitter cuts from a segment is longer than
    the tolerance, has two different ends, runs away from the start of the
    segment, and each of its ends is an end of the segment or a stored
    intersection that passed the point-on-segment test. *)
Theorem split_segment_pieces (self : GeometryProcessor) (seg : segment)
    (p1 p2 : complex) :
  (p1, p2) ∈ split_segment self seg →
  cabs_gtb (csub p2 p1) (tolerance self) = true
  ∧ p1 ≠ p2
  ∧ nearer (fst seg) p1 p2
  ∧ ∀ p, p = p1 ∨ p = p2 →
         p = fst seg ∨ p = snd seg
         ∨ (p ∈ intersections self ∧ _point_on_segment self p seg = true).
Proof. exact (split_segment_spec self seg p1 p2). Qed.

(** A diagonal cut at its middle. *)
Lemma split_segment_pieces_witness :
  let self :=
    mkGeometryProcessor (ofZ 1 / ofZ 10) [pt 1 1]%list
      [(pt 0 0, pt 2 2); (pt 0 2, pt 2 0)] in
  split_segment self (pt 0 0, pt 2 2)
  = [(pt 0 0, pt 1 1); (pt 1 1, pt 2 2)]
  ∧ cabs_gtb (csub (pt 2 2) (pt 1 1)) (tolerance self) = true.
Proof.
  intros self.
  assert (Hs : split_segment self (pt 0 0, pt 2 2)
               = [(pt 0 0, pt 1 1); (pt 1 1, pt 2 2)]).
  { apply (bool_decide_unpack _). vm_compute. exact I. }
  split; [exact Hs|].
  apply (split_segment_pieces self (pt 0 0, pt 2 2) (pt 1 1) (pt 2 2)).
  rewrite Hs. apply list_elem_of_further, list_elem_of_here.
Defined.

Lemma split_segment_plain self start end_ :
  intersections self = [] →
  split_segment self (start, end_)
  = if decide (start ≠ end_
               ∧ cabs_gtb (csub end_ start) (tolerance self) = true)
    then [(start, end_)] else [].
Proof.
  intros Hnone. unfold split_segment. rewrite Hnone, filter_nil. simpl.
  unfold _sort_points_along_segment, set_of_list. simpl.
  assert (Hone : set_add start [] = [start]).
  { unfold set_add. rewrite decide_False by (apply not_elem_of_nil).
    reflexivity. }
  rewrite Hone.
  unfold set_add. destruct (decide (end_ ∈ [start])) as [Hin|Hout].
  - apply list_elem_of_singleton in Hin as ->. simpl.
    rewrite decide_False by tauto. reflexivity.
  - assert (Hne : start ≠ end_).
    { intros ->. apply Hout, list_elem_of_here. }
    simpl. unfold sorted_by. simpl.
    assert (Hle : Qc_leb (norm2 (csub start start))
                    (norm2 (csub end_ start)) = true).
    { apply Qc_leb_spec. rewrite csub_diag.
      change (norm2 (0, 0)) with 0. apply norm2_nonneg. }
    rewrite Hle. simpl. rewrite filter_cons, filter_nil.
    destruct (decide (start ≠ end_ ∧ _)) as [[_ Hc]|Hn].
    + rewrite decide_True by exact Hc. reflexivity.
    + rewrite decide_False; [reflexivity|].
      intros Hc. apply Hn. split; [exact Hne | exact Hc].
Qed.

(** X7.  When no intersection is stored, splitting keeps the segments whose
    ends differ and that are longer than the tolerance, unchanged and in
    order, and drops the others. *)
Theorem split_without_intersections (self : GeometryProcessor) :
  intersections self = [] →
  _split_segments_at_intersections self
  = filter (fun seg => fst seg ≠ snd seg
                       ∧ cabs_gtb (csub (snd seg) (fst seg)) (tolerance self)
                         = true)
           (segments self).
Proof.
  intros Hnone. unfold _split_segments_at_intersections.
  induction (segments self) as [|[start end_] segs IH]; [reflexivity|].
  change (flat_map (split_segment self) ((start, end_) :: segs))
    with (split_segment self (start, end_)
          ++ flat_map (split_segment self) segs).
  rewrite IH, filter_cons, (split_segment_plain _ _ _ Hnone).
  cbn [fst snd].
  destruct (decide (start ≠ end_ ∧ _)); reflexivity.
Qed.

(** A long segment, a short one and a point. *)
Lemma split_without_intersections_witness :
  let self :=
    mkGeometryProcessor (ofZ 1 / ofZ 10) []
      [(pt 0 0, pt 5 0); (pt 0 0, (ofZ 1 / ofZ 20, ofZ 0)); (pt 3 3, pt 3 3);
       (pt 5 0, pt 5 5)] in
  _split_segments_at_intersections self
  = [(pt 0 0, pt 5 0); (pt 5 0, pt 5 5)].
Proof.
  intros self.
  rewrite (split_without_intersections self) by reflexivity.
  apply (bool_decide_unpack _). vm_compute. exact I.
Defined.

(** ** Graph builder: the edges of the graph *)

Lemma dict_get_app g1 g2 a :
  dict_get (g1 ++ g2) a
  = match dict_get g1 a with
    | Ok v => Ok v
    | Raise _ => dict_get g2 a
    end.
Proof.
  induction g1 as [|[k v] g1 IH]; simpl; [reflexivity|].
  destruct (decide (a = k)); [reflexivity | exact IH].
Qed.

Lemma dict_get_not_key g a : a ∉ dict_keys g → dict_get g a = Raise KeyError.
Proof.
  induction g as [|[k v] g IH]; simpl; [reflexivity|].
  intros Hout. destruct (decide (a = k)) as [->|Hne].
  - exfalso. apply Hout, list_elem_of_here.
  - apply IH. intros Hin. apply Hout, list_elem_of_further, Hin.
Qed.

Lemma has_edge_setdefault g k a b :
  has_edge (dict_setdefault g k) a b ↔ has_edge g a b.
Proof.
  unfold has_edge, dict_setdefault.
  destruct (decide (k ∈ dict_keys g)) as [Hin|Hout]; [reflexivity|].
  rewrite dict_get_app. simpl. split.
  - intros (adj & Hget & Hb).
    destruct (dict_get g a) as [v|e]; [eauto|].
    destruct (decide (a = k)); [|discriminate].
    injection Hget as <-. apply elem_of_nil in Hb. contradiction.
  - intros (adj & Hget & Hb). rewrite Hget. eauto.
Qed.

Lemma dict_get_append g k v a :
  dict_get (dict_append g k v) a
  = if decide (a = k)
    then l ← dict_get g k; Ok (l ++ [v])
    else dict_get g a.
Proof.
  induction g as [|[k' l] g IH]; simpl.
  - destruct (decide (a = k)); reflexivity.
  - destruct (decide (k = k')) as [Hkk|Hkk]; simpl;
      destruct (decide (a = k')) as [Hak'|Hak'];
      destruct (decide (a = k)) as [Hak|Hak];
      try congruence; reflexivity.
Qed.

Lemma has_edge_append g k v a b :
  k ∈ dict_keys g →
  has_edge (dict_append g k v) a b ↔ has_edge g a b ∨ (a = k ∧ b = v).
Proof.
  intros Hk. unfold has_edge. rewrite dict_get_append.
  destruct (dict_get_keys _ _ Hk) as [l Hl].
  destruct (decide (a = k)) as [Heq|Hne].
  - subst a. rewrite Hl. simpl. split.
    + intros (adj & [= <-] & Hb).
      apply elem_of_app in Hb as [Hb|Hb]; [left; eauto|].
      apply list_elem_of_singleton in Hb. auto.
    + intros [(adj & Hget & Hb)|[_ ->]].
      * injection Hget as <-.
        exists (l ++ [v]). split; [reflexivity|].
        apply elem_of_app. auto.
      * exists (l ++ [v]). split; [reflexivity|].
        apply elem_of_app. right. apply list_elem_of_here.
  - split; [auto|]. intros [H|[Hc _]]; [exact H | contradiction].
Qed.

Lemma has_edge_add_edge g s e a b :
  has_edge (add_edge g s e) a b ↔
  has_edge g a b ∨ (a = s ∧ b = e) ∨ (a = e ∧ b = s).
Proof.
  unfold add_edge.
  rewrite has_edge_append
    by (rewrite dict_keys_append, !dict_keys_setdefault; tauto).
  rewrite has_edge_append by (rewrite !dict_keys_setdefault; tauto).
  rewrite !has_edge_setdefault. tauto.
Qed.

Lemma all_neighbors_setdefault g k :
  length (all_neighbors (dict_setdefault g k)) = length (all_neighbors g).
Proof.
  unfold dict_setdefault. destruct (decide (k ∈ dict_keys g)); [reflexivity|].
  unfold all_neighbors. rewrite flat_map_app, length_app. simpl. lia.
Qed.

Lemma all_neighbors_append g k v :
  k ∈ dict_keys g →
  length (all_neighbors (dict_append g k v)) = S (length (all_neighbors g)).
Proof.
  unfold all_neighbors.
  induction g as [|[k' l] g IH]; simpl; intros Hk.
  - apply elem_of_nil in Hk. contradiction.
  - destruct (decide (k = k')) as [->|Hne]; simpl.
    + rewrite !length_app. simpl. lia.
    + apply elem_of_cons in Hk as [?|Hk]; [contradiction|].
      rewrite !length_app, IH by exact Hk. lia.
Qed.

Lemma all_neighbors_add_edge g s e :
  length (all_neighbors (add_edge g s e))
  = (2 + length (all_neighbors g))%nat.
Proof.
  unfold add_edge.
  rewrite all_neighbors_append
    by (rewrite dict_keys_append, !dict_keys_setdefault; tauto).
  rewrite all_neighbors_append by (rewrite !dict_keys_setdefault; tauto).
  rewrite !all_neighbors_setdefault. reflexivity.
Qed.

Lemma build_graph_loop_edges self segs :
  ∀ g g',
    build_graph_loop self segs g = Ok g' →
    length (all_neighbors g')
    = (2 * length segs + length (all_neighbors g))%nat
    ∧ ∀ a b,
        has_edge g' a b ↔
        has_edge g a b
        ∨ ∃ start end_ ks ke,
            (start, end_) ∈ segs
            ∧ _round_point self start = Ok ks
            ∧ _round_point self end_ = Ok ke
            ∧ ((a = ks ∧ b = ke) ∨ (a = ke ∧ b = ks)).
Proof.
  induction segs as [|[start end_] segs IH]; intros g g'; simpl.
  - intros [= <-]. split; [reflexivity|]. intros a b. split; [auto|].
    intros [H|(s & e & ks & ke & Hin & _)]; [exact H|].
    apply elem_of_nil in Hin. contradiction.
  - destruct (_round_point self start) as [ks|] eqn:Hs; simpl; [|discriminate].
    destruct (_round_point self end_) as [ke|] eqn:He; simpl; [|discriminate].
    intros Hb. apply IH in Hb as [Hlen Hedges]. split.
    + rewrite Hlen, all_neighbors_add_edge. lia.
    + intros a b. rewrite Hedges, has_edge_add_edge. split.
      * intros [[H|H]|(s & e & ks' & ke' & Hin & H)].
        -- auto.
        -- right. exists start, end_, ks, ke.
           split; [apply list_elem_of_here|]. auto.
        -- right. exists s, e, ks', ke'.
           split; [apply list_elem_of_further, Hin|]. exact H.
      * intros [H|(s & e & ks' & ke' & Hin & Hrs & Hre & H)]; [auto|].
        apply elem_of_cons in Hin as [[= -> ->]|Hin].
        -- rewrite Hs in Hrs. rewrite He in Hre.
           injection Hrs as <-. injection Hre as <-. auto.
        -- right. exists s, e, ks', ke'. auto.
Qed.

Lemma build_segment_graph_edges_spec (self : GeometryProcessor)
    (segs : list segment) (g : graph) :
  _build_segment_graph self segs = Ok g →
  (∀ a b,
     has_edge g a b ↔
     ∃ start end_ ks ke,
       (start, end_) ∈ segs
       ∧ _round_point self start = Ok ks
       ∧ _round_point self end_ = Ok ke
       ∧ ((a = ks ∧ b = ke) ∨ (a = ke ∧ b = ks)))
  ∧ (∀ a b, has_edge g a b → has_edge g b a)
  ∧ graph_closed g
  ∧ length (all_neighbors g) = (2 * length segs)%nat.
Proof.
  intros Hbuild.
  pose proof (build_segment_graph_spec _ _ _ Hbuild) as (Hclosed & _).
  unfold _build_segment_graph in Hbuild.
  apply build_graph_loop_edges in Hbuild as [Hlen Hedges].
  assert (Hiff : ∀ a b,
            has_edge g a b ↔
            ∃ start end_ ks ke,
              (start, end_) ∈ segs
              ∧ _round_point self start = Ok ks
              ∧ _round_point self end_ = Ok ke
              ∧ ((a = ks ∧ b = ke) ∨ (a = ke ∧ b = ks))).
  { intros a b. rewrite Hedges. split; [|auto].
    intros [(adj & Hget & _)|H]; [discriminate | exact H]. }
  split; [exact Hiff|]. split; [|split; [exact Hclosed|]].
  - intros a b Hab. apply Hiff in Hab as (s & e & ks & ke & Hin & Hs & He & H).
    apply Hiff. exists s, e, ks, ke. tauto.
  - rewrite Hlen. simpl. lia.
Qed.

(** X8.  The graph has an edge from [a] to [b] exactly when some segment
    has [a] and [b] as its rounded ends, in either order: every edge is
    stored in both directions, every neighbour has an entry of its own, and
    the adjacency lists hold two entries per segment. *)
Theorem build_segment_graph_edges (self : GeometryProcessor)
    (segs : list segment) (g : graph) :
  _build_segment_graph self segs = Ok g →
  (∀ a b,
     has_edge g a b ↔
     ∃ start end_ ks ke,
       (start, end_) ∈ segs
       ∧ _round_point self start = Ok ks
       ∧ _round_point self end_ = Ok ke
       ∧ ((a = ks ∧ b = ke) ∨ (a = ke ∧ b = ks)))
  ∧ (∀ a b, has_edge g a b → has_edge g b a)
  ∧ graph_closed g
  ∧ length (all_neighbors g) = (2 * length segs)%nat.
Proof. exact (build_segment_graph_edges_spec self segs g). Qed.

Lemma build_segment_graph_edges_witness :
  let self := __init__ (ofZ 1 / ofZ 10) in
  let segs := [(pt 0 0, pt 3 0); (pt 3 0, pt 1 2); (pt 1 2, pt 0 0)] in
  ∃ g, _build_segment_graph self segs = Ok g
       ∧ has_edge g (pt 3 0) (pt 0 0)
       ∧ length (all_neighbors g) = 6%nat.
Proof.
  intros self segs.
  destruct (_build_segment_graph self segs) as [g|] eqn:Hb;
    [|vm_compute in Hb; discriminate].
  exists g. split; [reflexivity|].
  destruct (build_segment_graph_edges self segs g Hb) as (He & _ & _ & Hlen).
  split; [|exact Hlen].
  apply He. exists (pt 0 0), (pt 3 0), (pt 0 0), (pt 3 0).
  split; [apply list_elem_of_here|].
  split; [apply (bool_decide_unpack _); vm_compute; exact I|].
  split; [apply (bool_decide_unpack _); vm_compute; exact I|].
  right. split; reflexivity.
Defined.

(** ** Graph builder: errors *)





(** ** Face extractor: the rightmost-turn choice *)

Lemma argmin_fold (f : complex → Qc) :
  ∀ (l P : list complex) (i : nat) (b : complex),
    P !! i = Some b →
    (∀ n, n ∈ P → f b ≤ f n) →
    (∀ j n, (j < i)%nat → P !! j = Some n → f b < f n) →
    ∃ i' b',
      fst (fold_left
             (fun '(best_neighbor, best_angle) neighbor =>
                if lt_best (f neighbor) best_angle
                then (neighbor, Some (f neighbor))
                else (best_neighbor, best_angle))
             l (b, Some (f b))) = b'
      ∧ (P ++ l) !! i' = Some b'
      ∧ (∀ n, n ∈ P ++ l → f b' ≤ f n)
      ∧ (∀ j n, (j < i')%nat → (P ++ l) !! j = Some n → f b' < f n).
Proof.
  induction l as [|n l IH]; intros P i b Hi Hmin Hfirst.
  - exists i, b. rewrite app_nil_r. auto.
  - simpl. destruct (Qc_ltb (f n) (f b)) eqn:E.
    + apply Qc_ltb_spec in E.
      destruct (IH (P ++ [n]) (length P) n) as (i' & b' & H1 & H2 & H3 & H4).
      * rewrite lookup_app_r by lia. rewrite Nat.sub_diag. reflexivity.
      * intros m Hm. apply elem_of_app in Hm as [Hm|Hm].
        -- apply Qclt_le_weak. eapply Qclt_le_trans; [exact E|]. apply Hmin, Hm.
        -- apply list_elem_of_singleton in Hm as ->. apply Qcle_refl.
      * intros j m Hj Hm. rewrite lookup_app_l in Hm by exact Hj.
        eapply Qclt_le_trans; [exact E|]. apply Hmin.
        eapply list_elem_of_lookup_2, Hm.
      * exists i', b'. rewrite <- app_assoc in H2, H3, H4. auto.
    + apply Qc_ltb_false in E. apply Qcnot_lt_le in E.
      destruct (IH (P ++ [n]) i b) as (i' & b' & H1 & H2 & H3 & H4).
      * rewrite lookup_app_l by (eapply lookup_lt_Some, Hi). exact Hi.
      * intros m Hm. apply elem_of_app in Hm as [Hm|Hm]; [apply Hmin, Hm|].
        apply list_elem_of_singleton in Hm as ->. exact E.
      * intros j m Hj Hm.
        rewrite lookup_app_l in Hm
          by (apply lookup_lt_Some in Hi; lia).
        eapply Hfirst; eassumption.
      * exists i', b'. rewrite <- app_assoc in H2, H3, H4. auto.
Qed.

(** X10.  Among the neighbours it is given, [_choose_rightmost_neighbor]
    returns one with the smallest [angle_diff], and of several with that
    smallest value the first in the list; an empty list raises
    [IndexError]. *)
Theorem choose_rightmost_minimal `{Numpy} (current previous : complex)
    (neighbors : list complex) :
  (neighbors = [] →
   _choose_rightmost_neighbor current previous neighbors = Raise IndexError)
  ∧ (neighbors ≠ [] →
     ∃ i best,
       _choose_rightmost_neighbor current previous neighbors = Ok best
       ∧ neighbors !! i = Some best
       ∧ (∀ n, n ∈ neighbors →
               angle_diff current previous best
               ≤ angle_diff current previous n)
       ∧ (∀ j n, (j < i)%nat → neighbors !! j = Some n →
                 angle_diff current previous best
                 < angle_diff current previous n)).
Proof.
  split; [intros ->; reflexivity|].
  intros Hne. destruct neighbors as [|first rest]; [contradiction|].
  unfold _choose_rightmost_neighbor.
  destruct (argmin_fold (angle_diff current previous) rest [first] 0%nat first)
    as (i & best & H1 & H2 & H3 & H4).
  - reflexivity.
  - intros n Hn. apply list_elem_of_singleton in Hn as ->. apply Qcle_refl.
  - intros j n Hj. lia.
  - exists i, best. split; [|auto].
    f_equal. rewrite <- H1. reflexivity.
Qed.

Lemma choose_rightmost_minimal_witness :
  ∃ i best,
    _choose_rightmost_neighbor (H := NumpyModel.numpy) (pt 1 0) (pt 0 0)
      [pt 1 1; pt 2 0; pt 1 (-1)] = Ok best
    ∧ [pt 1 1; pt 2 0; pt 1 (-1)] !! i = Some best.
Proof.
  destruct (choose_rightmost_minimal (H := NumpyModel.numpy) (pt 1 0) (pt 0 0)
              [pt 1 1; pt 2 0; pt 1 (-1)]) as [_ Hsome].
  destruct (Hsome ltac:(discriminate)) as (i & best & H1 & H2 & _).
  exists i, best. auto.
Defined.

(** ** Face extractor: the cycles are cycles of the graph *)

Lemma tail_snoc {A} (l : list A) (x : A) :
  l ≠ [] → tail (l ++ [x]) = tail l ++ [x].
Proof. destruct l; [contradiction | reflexivity]. Qed.

Lemma walk_loop_path `{Numpy} g start visited_edges :
  ∀ fuel path visited_nodes current w,
    walk_loop fuel g start visited_edges path visited_nodes current = Ok w →
    last path = Some current →
    (∀ x, x ∈ path → x ∈ visited_nodes) →
    graph_path g path →
    NoDup (tail path) →
    match w with
    | Closed p _ =>
        graph_path g p
        ∧ (∃ last_, last p = Some last_ ∧ has_edge g last_ start)
        ∧ NoDup (tail p)
        ∧ (NoDup path → NoDup p)
    | DeadEnd p =>
        graph_path g p ∧ NoDup (tail p) ∧ (NoDup path → NoDup p)
    end.
Proof.
  induction fuel as [|fuel IH]; intros path visited_nodes current w;
    simpl; [discriminate|].
  destruct (dict_get g current) as [adj|] eqn:Hadj; simpl; [|discriminate].
  destruct (can_close adj start current visited_edges path) eqn:Hclose.
  - intros [= <-] Hl Hvis Hpath Hnd.
    unfold can_close in Hclose.
    apply andb_true_iff in Hclose as [Hclose _].
    apply andb_true_iff in Hclose as [Hstart _].
    apply bool_decide_eq_true in Hstart.
    split; [exact Hpath|]. split; [|split; [exact Hnd | auto]].
    exists current. split; [exact Hl|]. exists adj. auto.
  - destruct (filter (eligible current visited_edges visited_nodes) adj)
      as [|first others] eqn:Hnb.
    + intros [= <-] Hl Hvis Hpath Hnd. auto.
    + destruct (match others with [] => Ok first | _ => _ end)
        as [next|] eqn:Hnext; simpl; [|discriminate].
      intros Hw Hl Hvis Hpath Hnd.
      apply next_node_in in Hnext. rewrite <- Hnb in Hnext.
      apply list_elem_of_filter in Hnext as [[_ Hnew] Hin].
      assert (Hne : path ≠ []) by (intros ->; discriminate).
      assert (Hfresh : next ∉ path) by (intros Hp; apply Hnew, Hvis, Hp).
      specialize (IH _ _ _ _ Hw).
      assert (Hgoal :
        match w with
        | Closed p _ =>
            graph_path g p
            ∧ (∃ last_, last p = Some last_ ∧ has_edge g last_ start)
            ∧ NoDup (tail p)
            ∧ (NoDup (path ++ [next]) → NoDup p)
        | DeadEnd p =>
            graph_path g p ∧ NoDup (tail p)
            ∧ (NoDup (path ++ [next]) → NoDup p)
        end).
      { apply IH.
        - apply last_snoc.
        - intros x Hx. apply elem_of_set_add.
          apply elem_of_app in Hx as [Hx|Hx]; [right; apply Hvis, Hx|].
          apply list_elem_of_singleton in Hx. auto.
        - unfold graph_path.
          rewrite (consecutive_pairs_snoc _ current) by exact Hl.
          apply Forall_app. split; [exact Hpath|].
          apply Forall_singleton. exists adj. auto.
        - rewrite tail_snoc by exact Hne.
          apply NoDup_app. split; [exact Hnd|]. split.
          + intros x Hx Hn. apply list_elem_of_singleton in Hn as ->.
            apply Hfresh. destruct path; [contradiction|].
            apply list_elem_of_further, Hx.
          + apply NoDup_singleton. }
      assert (Hsnoc : NoDup path → NoDup (path ++ [next])).
      { intros Hp. apply NoDup_app. split; [exact Hp|]. split.
        - intros x Hx Hn. apply list_elem_of_singleton in Hn as ->.
          contradiction.
        - apply NoDup_singleton. }
      destruct w as [p v|p]; intuition.
Qed.

Lemma first_walk_cycle `{Numpy} g s n visited_edges p v :
  has_edge g s n →
  first_walk g s n visited_edges = Ok (Closed p v) →
  graph_path g p
  ∧ (∃ last_, last p = Some last_ ∧ has_edge g last_ s)
  ∧ NoDup (tail p)
  ∧ (s ≠ n → NoDup p).
Proof.
  intros Hedge Hw. unfold first_walk in Hw.
  apply walk_loop_path in Hw.
  - destruct Hw as (H1 & H2 & H3 & H4). split; [exact H1|].
    split; [exact H2|]. split; [exact H3|].
    intros Hne. apply H4. apply NoDup_cons. split.
    + intros Hin. apply list_elem_of_singleton in Hin. contradiction.
    + apply NoDup_singleton.
  - reflexivity.
  - intros x Hx. apply elem_of_set_add.
    rewrite !elem_of_cons, elem_of_nil in Hx.
    rewrite list_elem_of_singleton. tauto.
  - unfold graph_path. simpl. apply Forall_singleton. exact Hedge.
  - simpl. apply NoDup_singleton.
Qed.

Lemma cycles_loop_Forall `{Numpy} (P : list complex → Prop) g :
  (∀ s n visited_edges p v,
     has_edge g s n →
     first_walk g s n visited_edges = Ok (Closed p v) → P p) →
  ∀ nodes st st',
    cycles_loop g nodes st = Ok st' →
    Forall P (fst st) → Forall P (fst st').
Proof.
  intros Hwalk.
  assert (Hnode : ∀ s adj0 adj st st',
            dict_get g s = Ok adj0 → (∀ n, n ∈ adj → n ∈ adj0) →
            cycles_from_node g s adj st = Ok st' →
            Forall P (fst st) → Forall P (fst st')).
  { intros s adj0. induction adj as [|n adj IH]; intros st st' Hget Hsub; simpl.
    - intros [= <-]. auto.
    - destruct (try_edge g s n st) as [st1|] eqn:Htry; simpl; [|discriminate].
      intros Hrest Hall.
      apply (IH st1 st' Hget); [intros x Hx; apply Hsub,
                                  list_elem_of_further, Hx | exact Hrest |].
      destruct st as [cycles visited_edges].
      apply try_edge_cases in Htry as [[_ ->]|(_ & w & Hw & ->)]; [exact Hall|].
      destruct w as [p v|p]; simpl; [|exact Hall].
      apply Forall_app. split; [exact Hall|]. apply Forall_singleton.
      eapply Hwalk; [|exact Hw].
      exists adj0. split; [exact Hget|]. apply Hsub, list_elem_of_here. }
  induction nodes as [|s nodes IH]; intros st st'; simpl.
  - intros [= <-]. auto.
  - destruct (dict_get g s) as [adj|] eqn:Hget; simpl; [|discriminate].
    destruct (cycles_from_node g s adj st) as [st1|] eqn:Hfrom; simpl;
      [|discriminate].
    intros Hrest Hall. apply (IH st1 st' Hrest).
    exact (Hnode s adj adj st st1 Hget (fun n Hn => Hn) Hfrom Hall).
Qed.

Lemma find_cycles_graph_cycles `{Numpy} (g : graph)
    (cycles : list (list complex)) :
  _find_cycles_in_graph g = Ok cycles →
  ∀ c, c ∈ cycles →
       (3 ≤ length c)%nat
       ∧ graph_path g c
       ∧ (∃ first last_,
            head c = Some first ∧ last c = Some last_
            ∧ has_edge g last_ first)
       ∧ NoDup (tail c)
       ∧ (∀ a b rest, c = a :: b :: rest → a ≠ b → NoDup c).
Proof.
  unfold _find_cycles_in_graph.
  destruct (cycles_loop g (dict_keys g) ([], [])) as [st|] eqn:Hloop; simpl;
    [|discriminate].
  intros [= <-] c Hc.
  pose proof (cycles_loop_Forall
    (fun c => (3 ≤ length c)%nat
              ∧ graph_path g c
              ∧ (∃ first last_,
                   head c = Some first ∧ last c = Some last_
                   ∧ has_edge g last_ first)
              ∧ NoDup (tail c)
              ∧ (∀ a b rest, c = a :: b :: rest → a ≠ b → NoDup c)) g)
    as Hall.
  cbv beta in Hall.
  assert (Hstep : ∀ s n visited_edges p v,
            has_edge g s n →
            first_walk g s n visited_edges = Ok (Closed p v) →
            (3 ≤ length p)%nat
            ∧ graph_path g p
            ∧ (∃ first last_,
                 head p = Some first ∧ last p = Some last_
                 ∧ has_edge g last_ first)
            ∧ NoDup (tail p)
            ∧ (∀ a b rest, p = a :: b :: rest → a ≠ b → NoDup p));
    [|specialize (Hall Hstep _ _ _ Hloop (Forall_nil_2 _));
      rewrite Forall_forall in Hall; exact (Hall c Hc)].
  clear. intros s n visited_edges p v Hedge Hw.
  destruct (first_walk_cycle _ _ _ _ _ _ Hedge Hw) as (Hpath & Hlast & Hnd & Hall).
  assert (Hshape : ∃ rest, p = s :: n :: rest ∧ (3 ≤ length p)%nat).
  { unfold first_walk in Hw. clear -Hw.
    assert (Hgen : ∀ fuel path visited_nodes current,
              walk_loop fuel g s visited_edges path visited_nodes current
              = Ok (Closed p v) →
              path `prefix_of` p ∧ (3 ≤ length p)%nat).
    { induction fuel as [|fuel IH]; intros path vn current; simpl;
        [discriminate|].
      destruct (dict_get g current) as [adj|]; simpl; [|discriminate].
      destruct (can_close adj s current visited_edges path) eqn:Hclose.
      - intros [= <- _]. split; [reflexivity|].
        unfold can_close in Hclose.
        apply andb_true_iff in Hclose as [_ Hlen].
        apply bool_decide_eq_true in Hlen. exact Hlen.
      - destruct (filter _ adj) as [|first others]; [discriminate|].
        destruct (match others with [] => Ok first | _ => _ end)
          as [next|]; simpl; [|discriminate].
        intros Hw'. apply IH in Hw' as [Hpre Hlen]. split; [|exact Hlen].
        etransitivity; [|exact Hpre]. apply prefix_app_r. reflexivity. }
    apply Hgen in Hw as [[rest ->] Hlen]. exists rest. auto. }
  destruct Hshape as (rest & -> & Hlen).
  split; [exact Hlen|]. split; [exact Hpath|]. split; [|split; [exact Hnd|]].
  - destruct Hlast as (l & Hl & He). exists s, l. auto.
  - intros a b rest' [= <- <- <-] Hne. apply Hall, Hne.
Qed.

(** X11.  Every cycle the extractor returns is a cycle of the graph: it has
    at least three nodes, each node is a neighbour of the one before it and
    the first a neighbour of the last; the nodes after the first are
    pairwise different, and all nodes are when the first two differ (they
    are equal only for a walk started along a self-loop). *)
Theorem extracted_cycles_are_graph_cycles `{Numpy} (g : graph)
    (cycles : list (list complex)) :
  _find_cycles_in_graph g = Ok cycles →
  ∀ c, c ∈ cycles →
       (3 ≤ length c)%nat
       ∧ graph_path g c
       ∧ (∃ first last_,
            head c = Some first ∧ last c = Some last_
            ∧ has_edge g last_ first)
       ∧ NoDup (tail c)
       ∧ (∀ a b rest, c = a :: b :: rest → a ≠ b → NoDup c).
Proof. exact (find_cycles_graph_cycles g cycles). Qed.

Lemma extracted_cycles_are_graph_cycles_witness :
  let g : graph :=
    [(pt 0 0, [pt 3 0; pt 1 2]); (pt 3 0, [pt 0 0; pt 1 2]);
     (pt 1 2, [pt 3 0; pt 0 0])] in
  _find_cycles_in_graph (H := NumpyModel.numpy) g
  = Ok [[pt 0 0; pt 3 0; pt 1 2]]
  ∧ graph_path g [pt 0 0; pt 3 0; pt 1 2].
Proof.
  intros g.
  assert (Hrun : _find_cycles_in_graph (H := NumpyModel.numpy) g
                 = Ok [[pt 0 0; pt 3 0; pt 1 2]]).
  { apply (bool_decide_unpack _). vm_compute. exact I. }
  split; [exact Hrun|].
  apply (extracted_cycles_are_graph_cycles (H := NumpyModel.numpy) g _ Hrun).
  apply list_elem_of_here.
Defined.

(** ** The pipeline: no error with a positive tolerance *)



(** ** De-nesting: what is kept *)

Lemma enumerate_lookup {A} (l : list A) i :
  enumerate l !! i = pair i <$> l !! i.
Proof. unfold enumerate. apply list_lookup_imap. Qed.

Lemma enumerate_snd {A} (l : list A) : snd <$> enumerate l = l.
Proof.
  apply list_eq. intros i.
  rewrite list_lookup_fmap, enumerate_lookup.
  destruct (l !! i); reflexivity.
Qed.

Lemma enumerate_fst_NoDup {A} (l : list A) : NoDup (fst <$> enumerate l).
Proof.
  apply NoDup_alt. intros i j x Hi Hj.
  rewrite list_lookup_fmap, enumerate_lookup in Hi, Hj.
  destruct (l !! i); [|discriminate]. destruct (l !! j); [|discriminate].
  simpl in Hi, Hj. congruence.
Qed.

Lemma is_nested_false `{Shapely} polygons i poly1 :
  is_nested polygons i poly1 = false ↔
  ∀ j poly2, polygons !! j = Some poly2 → j ≠ i →
             contains poly2 poly1 = false.
Proof.
  split.
  - intros Hn j poly2 Hj Hne.
    destruct (contains poly2 poly1) eqn:Hc; [|reflexivity].
    assert (Ht : is_nested polygons i poly1 = true)
      by (apply is_nested_true; eauto).
    congruence.
  - intros Hall. destruct (is_nested polygons i poly1) eqn:Hn; [|reflexivity].
    apply is_nested_true in Hn as (j & poly2 & Hj & Hne & Hc).
    rewrite (Hall j poly2 Hj Hne) in Hc. discriminate.
Qed.

Lemma remove_nested_spec `{Shapely} (polygons : list Polygon) :
  let kept := _remove_nested_polygons polygons in
  kept `sublist_of` polygons
  ∧ (∀ i P,
       polygons !! i = Some P →
       (∀ j Q, j ≠ i → polygons !! j = Some Q → contains Q P = false) →
       P ∈ kept)
  ∧ ((length polygons ≤ 1)%nat → kept = polygons)
  ∧ (∀ i j P Q,
       i ≠ j → kept !! i = Some P → kept !! j = Some Q →
       contains Q P = false).
Proof.
  intros kept. unfold kept, _remove_nested_polygons.
  set (F := filter (fun '(i, poly1) => is_nested polygons i poly1 = false)
                   (enumerate polygons)).
  assert (Hsub : F `sublist_of` enumerate polygons) by apply sublist_filter.
  split; [|split; [|split]].
  - assert (Hall : snd <$> F `sublist_of` snd <$> enumerate polygons)
      by (apply fmap_sublist; exact Hsub).
    rewrite enumerate_snd in Hall. exact Hall.
  - intros i P Hi Hfree. apply elem_of_remove_nested.
    exists i. split; [exact Hi|]. apply is_nested_false.
    intros j Q Hj Hne. eapply Hfree; eassumption.
  - intros Hlen. destruct polygons as [|P [|Q polygons]];
      [reflexivity | | simpl in Hlen; lia].
    unfold F, enumerate. cbn [imap].
    rewrite filter_cons, filter_nil.
    unfold is_nested, enumerate. simpl. reflexivity.
  - intros i j P Q Hij Hi Hj.
    change (map snd F) with (snd <$> F) in Hi, Hj.
    rewrite list_lookup_fmap in Hi, Hj.
    destruct (F !! i) as [[a P']|] eqn:Hfi; [|discriminate].
    destruct (F !! j) as [[b Q']|] eqn:Hfj; [|discriminate].
    simpl in Hi, Hj. injection Hi as ->. injection Hj as ->.
    assert (Hab : a ≠ b).
    { intros ->.
      assert (Hnd : NoDup (fst <$> F)).
      { apply (sublist_NoDup _ (fst <$> enumerate polygons));
          [apply enumerate_fst_NoDup | apply (fmap_sublist fst); exact Hsub]. }
      apply Hij. apply (NoDup_lookup _ i j b Hnd);
        rewrite list_lookup_fmap; [rewrite Hfi | rewrite Hfj]; reflexivity. }
    assert (Hpa : (a, P) ∈ F) by (eapply list_elem_of_lookup_2, Hfi).
    assert (Hqb : (b, Q) ∈ F) by (eapply list_elem_of_lookup_2, Hfj).
    apply list_elem_of_filter in Hpa as [Hn _].
    apply list_elem_of_filter in Hqb as [_ Hq].
    apply elem_of_enumerate in Hq.
    rewrite is_nested_false in Hn. apply (Hn b Q Hq). auto.
Qed.

(** X13.  De-nesting returns a sub-list of its input, order kept.  An
    entry that no other entry contains stays; a list of at most one polygon
    is returned as it is; and in the output no polygon contains another
    one. *)
Theorem remove_nested_keeps `{Shapely} (polygons : list Polygon) :
  let kept := _remove_nested_polygons polygons in
  kept `sublist_of` polygons
  ∧ (∀ i P,
       polygons !! i = Some P →
       (∀ j Q, j ≠ i → polygons !! j = Some Q → contains Q P = false) →
       P ∈ kept)
  ∧ ((length polygons ≤ 1)%nat → kept = polygons)
  ∧ (∀ i j P Q,
       i ≠ j → kept !! i = Some P → kept !! j = Some Q →
       contains Q P = false).
Proof. exact (remove_nested_spec polygons). Qed.

Lemma remove_nested_keeps_witness :
  let a :=
    mkPolygon [(ofZ 0, ofZ 0); (ofZ 5, ofZ 0); (ofZ 5, ofZ 5); (ofZ 0, ofZ 5)] in
  let b :=
    mkPolygon [(ofZ 7, ofZ 0); (ofZ 9, ofZ 0); (ofZ 9, ofZ 5); (ofZ 7, ofZ 5)] in
  a ∈ _remove_nested_polygons (H := ShapelyModel.shapely) [a; b].
Proof.
  intros a b.
  destruct (remove_nested_keeps (H := ShapelyModel.shapely) [a; b])
    as (_ & Hkeep & _).
  apply (Hkeep 0%nat a); [reflexivity|].
  intros [|[|j]] Q Hne Hj; [contradiction | | discriminate].
  injection Hj as <-. vm_compute. reflexivity.
Defined.

(** ** Validator: what is returned *)

(** X14.  The validator returns its polygons in the order of the cycles
    they come from; each is the polygon of one of the cycles, built without
    error, valid and not empty.  No cycle gives no polygon. *)
Theorem validated_polygons_sound `{Shapely} (self : GeometryProcessor)
    (cycles : list (list complex)) :
  _validate_polygons self cycles
    `sublist_of` omap (validate_cycle self) cycles
  ∧ (∀ p, p ∈ _validate_polygons self cycles →
          ∃ cycle,
            cycle ∈ cycles
            ∧ exterior p = map (fun z => (real z, imag z)) cycle
            ∧ constructible (exterior p) = true
            ∧ is_valid p = true
            ∧ is_empty p = false)
  ∧ _validate_polygons self [] = [].
Proof.
  split; [|split; [|reflexivity]].
  - unfold _validate_polygons.
    destruct (remove_nested_spec (omap (validate_cycle self) cycles))
      as (Hsub & _). exact Hsub.
  - intros p Hin.
    apply elem_of_validate_polygons in Hin as (c & Hc & Hv).
    exists c. split; [exact Hc|].
    pose proof (validate_cycle_Some _ _ _ Hv) as (-> & Hvalid & Hempty & _).
    split; [reflexivity|]. split; [|auto].
    unfold validate_cycle in Hv. simpl.
    destruct (constructible _); [reflexivity | discriminate].
Qed.

Lemma validated_polygons_sound_witness :
  let self := __init__ (ofZ 1 / ofZ 10) in
  let square := [pt 0 0; pt 50 0; pt 50 50; pt 0 50] in
  let p :=
    mkPolygon [(ofZ 0, ofZ 0); (ofZ 50, ofZ 0); (ofZ 50, ofZ 50);
               (ofZ 0, ofZ 50)] in
  p ∈ _validate_polygons (H := ShapelyModel.shapely) self [square]
  ∧ is_valid (Shapely := ShapelyModel.shapely) p = true
  ∧ is_empty (Shapely := ShapelyModel.shapely) p = false.
Proof.
  intros self square p.
  assert (Hin : p ∈ _validate_polygons (H := ShapelyModel.shapely) self
                      [square]).
  { apply (bool_decide_unpack _). vm_compute. exact I. }
  split; [exact Hin|].
  destruct (validated_polygons_sound (H := ShapelyModel.shapely)
              self [square]) as (_ & Hsound & _).
  destruct (Hsound p Hin) as (cycle & _ & _ & _ & Hvalid & Hempty).
  split; [exact Hvalid | exact Hempty].
Defined.

(** ** Rounding: how far a node is from its point *)

Lemma round_half_even_close (y : Qc) :
  ofZ (round_half_even y) - 1 / ofZ 2 ≤ y
  ∧ y ≤ ofZ (round_half_even y) + 1 / ofZ 2.
Proof.
  unfold round_half_even.
  pose proof (Qfloor_le y) as Hfl.
  pose proof (Qlt_floor y) as Hfu.
  rewrite inject_Z_plus in Hfu. change (inject_Z 1) with 1%Q in Hfu.
  set (f := Qfloor y) in *.
  assert (Hplus : (this (ofZ (f + 1)) == inject_Z f + 1)%Q).
  { rewrite this_ofZ, inject_Z_plus. reflexivity. }
  destruct (Qc_ltb (y - ofZ f) (1 / ofZ 2)) eqn:E1.
  - apply Qc_ltb_spec in E1. unfold Qclt in E1.
    rewrite this_minus, this_ofZ, this_half in E1.
    unfold Qcle. rewrite this_minus, this_plus, this_ofZ, this_half.
    clearbody f. generalize dependent (inject_Z f). intros. split; lra.
  - apply Qc_ltb_false in E1. unfold Qclt in E1.
    rewrite this_minus, this_ofZ, this_half in E1.
    destruct (Qc_ltb (1 / ofZ 2) (y - ofZ f)) eqn:E2.
    + unfold Qcle. rewrite this_minus, this_plus, Hplus, this_half.
      clearbody f. generalize dependent (inject_Z f). intros. split; lra.
    + apply Qc_ltb_false in E2. unfold Qclt in E2.
      rewrite this_minus, this_ofZ, this_half in E2.
      destruct (Z.even f);
        unfold Qcle; rewrite this_minus, this_plus, ?Hplus, ?this_ofZ, this_half;
        clearbody f; generalize dependent (inject_Z f); intros; split; lra.
Qed.

Lemma scaled_py_round x ndigits :
  scaled (py_round x ndigits) ndigits
  = ofZ (round_half_even (scaled x ndigits)).
Proof. rewrite py_round_scaled. apply scaled_unscaled. Qed.

Lemma round_point_close_aux x ndigits :
  scaled (py_round x ndigits) ndigits - 1 / ofZ 2 ≤ scaled x ndigits
  ∧ scaled x ndigits ≤ scaled (py_round x ndigits) ndigits + 1 / ofZ 2.
Proof. rewrite scaled_py_round. apply round_half_even_close. Qed.

(** X15.  On the rounding grid (coordinates multiplied by [10^p]) a node is
    at most half a step away from the point it stands for, in each
    coordinate; so two points that share a node are at most one step apart
    in each coordinate. *)
Theorem round_point_close (self : GeometryProcessor) (prec : Z)
    (p q key : complex) :
  precision self = Ok prec →
  _round_point self p = Ok key →
  (scaled (real key) prec - 1 / ofZ 2 ≤ scaled (real p) prec
   ∧ scaled (real p) prec ≤ scaled (real key) prec + 1 / ofZ 2
   ∧ scaled (imag key) prec - 1 / ofZ 2 ≤ scaled (imag p) prec
   ∧ scaled (imag p) prec ≤ scaled (imag key) prec + 1 / ofZ 2)
  ∧ (_round_point self q = Ok key →
     scaled (real p) prec - scaled (real q) prec ≤ 1
     ∧ scaled (real q) prec - scaled (real p) prec ≤ 1
     ∧ scaled (imag p) prec - scaled (imag q) prec ≤ 1
     ∧ scaled (imag q) prec - scaled (imag p) prec ≤ 1).
Proof.
  intros Hprec Hp.
  rewrite (round_point_unfold self prec) in Hp by exact Hprec.
  injection Hp as <-. unfold real at 1 3 5 7, imag at 1 3 5 7. simpl.
  destruct (round_point_close_aux (real p) prec) as [Hx1 Hx2].
  destruct (round_point_close_aux (imag p) prec) as [Hy1 Hy2].
  split; [auto|].
  intros Hq. rewrite (round_point_unfold self prec) in Hq by exact Hprec.
  injection Hq as Hqx Hqy.
  destruct (round_point_close_aux (real q) prec) as [Hx3 Hx4].
  destruct (round_point_close_aux (imag q) prec) as [Hy3 Hy4].
  rewrite Hqx in Hx3, Hx4. rewrite Hqy in Hy3, Hy4.
  unfold Qcle in *. rewrite !this_minus in *. rewrite !this_plus in *.
  rewrite !this_half in *. change (this 1) with 1%Q.
  repeat split; lra.
Qed.

Lemma round_point_close_witness :
  let self := __init__ (ofZ 1 / ofZ 10) in
  let p : complex := (ofZ 1 / ofZ 32, ofZ 0) in
  let q : complex := (ofZ 1 / ofZ 64, ofZ 0) in
  scaled (real p) 1 - scaled (real q) 1 ≤ 1.
Proof.
  intros self p q.
  destruct (round_point_close self 1%Z p q (pt 0 0)) as [_ Hsame].
  - reflexivity.
  - apply (bool_decide_unpack _). vm_compute. exact I.
  - apply Hsame. apply (bool_decide_unpack _). vm_compute. exact I.
Defined.

(** ** Edge identity *)

(** X16.  The key of an edge names the unordered pair of its ends: it is
    one of the two orderings of the pair, it is the same in both
    directions, and two edges have the same key exactly when they join the
    same two nodes. *)
Theorem edge_key_unordered_pair (a b c d : complex) :
  (edge_of a b = (a, b) ∨ edge_of a b = (b, a))
  ∧ edge_of a b = edge_of b a
  ∧ (edge_of a b = edge_of c d ↔ (a = c ∧ b = d) ∨ (a = d ∧ b = c)).
Proof.
  assert (Hor : ∀ x y, edge_of x y = (x, y) ∨ edge_of x y = (y, x)).
  { intros x y. unfold edge_of. destruct (key_ltb y x); auto. }
  split; [apply Hor|]. split; [apply edge_of_comm|].
  split.
  - intros Heq.
    destruct (Hor a b) as [Hab|Hab], (Hor c d) as [Hcd|Hcd];
      rewrite Hab, Hcd in Heq; injection Heq as -> ->; auto.
  - intros [[-> ->]|[-> ->]]; [reflexivity | apply edge_of_comm].
Qed.

(** ** The pipeline: where the vertices come from *)

Lemma round_point_tolerance self1 self2 p :
  tolerance self1 = tolerance self2 →
  _round_point self1 p = _round_point self2 p.
Proof.
  intros Htol. unfold _round_point, precision. rewrite Htol. reflexivity.
Qed.

Lemma line_intersection_tolerance self1 self2 seg1 seg2 :
  tolerance self1 = tolerance self2 →
  _line_intersection self1 seg1 seg2 = _line_intersection self2 seg1 seg2.
Proof. intros Htol. unfold _line_intersection. rewrite Htol. reflexivity. Qed.

Lemma elem_of_consecutive {A} (l : list A) x :
  (2 ≤ length l)%nat → x ∈ l →
  ∃ y, (x, y) ∈ consecutive_pairs l ∨ (y, x) ∈ consecutive_pairs l.
Proof.
  induction l as [|a [|b l] IH]; simpl; intros Hlen Hx; [lia | lia |].
  apply elem_of_cons in Hx as [->|Hx].
  - exists b. left. apply list_elem_of_here.
  - destruct l as [|c l].
    + apply list_elem_of_singleton in Hx as ->.
      exists a. right. apply list_elem_of_here.
    + destruct (IH ltac:(simpl; lia) Hx) as [y [Hy|Hy]];
        exists y; [left | right]; apply list_elem_of_further, Hy.
Qed.

(** X17.  Every vertex of every polygon [find_polygons] returns is the
    rounding of an end of one of the input segments or of an intersection
    the intersector reported for two of them. *)
Theorem polygon_vertices_provenance `{Numpy} `{Shapely}
    (self : GeometryProcessor) (line_segments : list segment)
    (polys : list Polygon) :
  returned (find_polygons self line_segments) = Ok polys →
  ∀ p v,
    p ∈ polys → v ∈ exterior p →
    ∃ point key,
      _round_point self point = Ok key
      ∧ v = (real key, imag key)
      ∧ ((∃ seg, seg ∈ line_segments
                 ∧ (point = fst seg ∨ point = snd seg))
         ∨ (∃ seg1 seg2,
              scanned_pair line_segments seg1 seg2
              ∧ _line_intersection self seg1 seg2 = Ok (Some point))).
Proof.
  unfold find_polygons.
  set (self0 := set_intersections (set_segments self line_segments) []).
  destruct (_find_intersections self0) as [self1|] eqn:Hscan; simpl;
    [|discriminate].
  destruct (_build_segment_graph self1 _) as [g|] eqn:Hg; simpl;
    [|discriminate].
  destruct (_find_cycles_in_graph g) as [cycles|] eqn:Hc; simpl;
    [|discriminate].
  intros [= <-] p v Hp Hv.
  destruct (find_intersections_spec _ _ Hscan) as (Htol & Hsegs & _ & Hints).
  assert (Htol0 : tolerance self1 = tolerance self) by exact Htol.
  apply elem_of_validate_polygons in Hp as (c & Hcin & Hval).
  apply validate_cycle_Some in Hval as (-> & _).
  simpl in Hv. apply list_elem_of_fmap in Hv as (z & -> & Hz).
  destruct (find_cycles_graph_cycles g cycles Hc c Hcin) as (Hlen & Hpath & _).
  destruct (elem_of_consecutive c z ltac:(lia) Hz) as [y Hy].
  unfold graph_path in Hpath. rewrite Forall_forall in Hpath.
  destruct (build_segment_graph_edges_spec _ _ _ Hg) as (Hedges & _).
  assert (Hend : ∃ start end_ point,
            (start, end_) ∈ _split_segments_at_intersections self1
            ∧ (point = start ∨ point = end_)
            ∧ _round_point self1 point = Ok z).
  { destruct Hy as [Hy|Hy]; apply Hpath in Hy; simpl in Hy;
      apply Hedges in Hy as (s & e & ks & ke & Hin & Hs & He & Hcase);
      destruct Hcase as [[-> ->]|[-> ->]];
      first [ exists s, e, s; split; [exact Hin|]; split; [auto | exact Hs]
            | exists s, e, e; split; [exact Hin|]; split; [auto | exact He] ]. }
  destruct Hend as (start & end_ & point & Hin & Hpoint & Hround).
  exists point, z.
  split; [rewrite <- (round_point_tolerance self1 self _ Htol0); exact Hround|].
  split; [reflexivity|].
  unfold _split_segments_at_intersections in Hin.
  apply list_elem_of_In, in_flat_map in Hin as (seg & Hseg & Hin).
  apply list_elem_of_In in Hseg, Hin.
  rewrite Hsegs in Hseg. simpl in Hseg.
  destruct (split_segment_spec _ _ _ _ Hin) as (_ & _ & _ & Hfrom).
  destruct (Hfrom point) as [Hf|[Hf|[Hf _]]].
  - destruct Hpoint; auto.
  - left. exists seg. auto.
  - left. exists seg. auto.
  - right. apply Hints in Hf as [Hf|(seg1 & seg2 & Hpair & Hli)].
    + simpl in Hf. apply elem_of_nil in Hf. contradiction.
    + exists seg1, seg2. split; [exact Hpair|].
      rewrite <- (line_intersection_tolerance self0 self); [exact Hli|].
      reflexivity.
Qed.

Lemma polygon_vertices_provenance_witness :
  let self := __init__ (ofZ 1 / ofZ 10) in
  let segs := [(pt 0 0, pt 3 0); (pt 3 0, pt 1 2); (pt 1 2, pt 0 0)] in
  let p := mkPolygon [(ofZ 0, ofZ 0); (ofZ 3, ofZ 0); (ofZ 1, ofZ 2)] in
  ∃ point key,
    _round_point self point = Ok key ∧ (ofZ 3, ofZ 0) = (real key, imag key).
Proof.
  intros self segs p.
  assert (Hrun : returned (find_polygons (H := NumpyModel.numpy)
                             (H0 := ShapelyModel.shapely) self segs)
                 = Ok [p]).
  { apply (bool_decide_unpack _). vm_compute. exact I. }
  destruct (polygon_vertices_provenance (H := NumpyModel.numpy)
              (H0 := ShapelyModel.shapely) self segs [p] Hrun p
              (ofZ 3, ofZ 0))
    as (point & key & Hr & Hv & _).
  - apply list_elem_of_here.
  - apply list_elem_of_further, list_elem_of_here.
  - exists point, key. auto.
Defined.
